(** * The lexical search and ranking engine of [src/App.tsx]

    A shallow embedding of [getStem], of the two memoised indexes
    ([stemToPrefixes]/[stemPrefixIndex] and [searchIndex]) and of
    [handleSearchLocal], followed by the properties of the engine.

    Conventions of the embedding.
    - A JavaScript string is the list of its UTF-16 code units ([str]);
      [length], [slice], [includes] and the regular expressions of the source
      all work on code units.  String constants are written as in the source
      and decoded from the UTF-8 bytes of this file by [lit].
    - [String.prototype.toLowerCase] is a parameter of the development
      ([toLowerCase]): no property of the engine depends on the Unicode case
      tables beyond what a theorem states as a hypothesis.
    - A JavaScript [Map] is an association list in insertion order
      ([JSMap]); a [Set<number>] is a duplicate-free list in insertion order.
    - The imported data [SYNONYMS] and [TNVED_DB] are parameters.
    - Scores are rationals.  Every weight of the source is an integer in
      binary64 (2000*2.5*1.2 = 6000, 2000*1.0*1.2 = 2400, 2000*2.5*0.8 = 4000,
      2000*1.0*0.8 = 1600, and 4000, 1500, 100), so sums of them are exact in
      binary64 below 2^53, and the quotient compared with 0.4 rounds to the
      same side of the rounded constant as the exact quotient does for every
      list of fewer than 2^50 stems.
    - The only operation of [handleSearchLocal] that can throw is the read of
      a field of [searchIndex.items[idx]] when that element is [undefined];
      it is modelled by the [TypeError] outcome. *)

From Stdlib Require Import Ascii String.
From Stdlib Require Import List Bool Arith NArith ZArith QArith Lia Lqa.
From Stdlib Require Import Permutation Qround Sorted.
Import ListNotations.
Local Open Scope nat_scope.

(* ================================================================== *)
(** ** Strings as UTF-16 code units *)

Definition str : Type := list N.

(** Decoding of the UTF-8 bytes of a literal into UTF-16 code units. *)
Fixpoint utf16_of_utf8 (bs : list N) : str :=
  match bs with
  | [] => []
  | b1 :: r1 =>
    if (b1 <? 128)%N then b1 :: utf16_of_utf8 r1
    else match r1 with
    | [] => [b1]
    | b2 :: r2 =>
      if (b1 <? 224)%N then ((b1 - 192) * 64 + (b2 - 128))%N :: utf16_of_utf8 r2
      else match r2 with
      | [] => [b1; b2]
      | b3 :: r3 =>
        if (b1 <? 240)%N
        then ((b1 - 224) * 4096 + (b2 - 128) * 64 + (b3 - 128))%N :: utf16_of_utf8 r3
        else match r3 with
        | [] => [b1; b2; b3]
        | b4 :: r4 =>
          let cp := ((b1 - 240) * 262144 + (b2 - 128) * 4096
                     + (b3 - 128) * 64 + (b4 - 128) - 65536)%N in
          (55296 + cp / 1024)%N :: (56320 + cp mod 1024)%N :: utf16_of_utf8 r4
        end
      end
    end
  end.

Definition lit (s : string) : str :=
  utf16_of_utf8 (map N_of_ascii (list_ascii_of_string s)).

Fixpoint str_eqb (a b : str) : bool :=
  match a, b with
  | [], [] => true
  | x :: a', y :: b' => (x =? y)%N && str_eqb a' b'
  | _, _ => false
  end.

(** [s.startsWith(p)] *)
Fixpoint startsWith (s p : str) {struct p} : bool :=
  match p with
  | [] => true
  | c :: p' =>
    match s with
    | [] => false
    | d :: s' => (c =? d)%N && startsWith s' p'
    end
  end.

(** [s.includes(sub)] *)
Fixpoint includes (s sub : str) : bool :=
  startsWith s sub ||
  match s with
  | [] => false
  | _ :: s' => includes s' sub
  end.

(** [s.slice(0, n)] *)
Definition slice0 (n : nat) (s : str) : str := firstn n s.

(** The code units matched by [\s] and removed by [trim]: WhiteSpace and
    LineTerminator of ECMAScript. *)
Definition is_space (c : N) : bool :=
  existsb (N.eqb c)
    [9; 10; 11; 12; 13; 32; 160; 5760; 8232; 8233; 8239; 8287; 12288; 65279]%N
  || ((8192 <=? c) && (c <=? 8202))%N.

Fixpoint trimStart (s : str) : str :=
  match s with
  | [] => []
  | c :: s' => if is_space c then trimStart s' else s
  end.

Definition trimEnd (s : str) : str := rev (trimStart (rev s)).

(** [s.trim()] *)
Definition trim (s : str) : str := trimEnd (trimStart s).

(** [s.split(/\s+/)]: the segments between maximal runs of white space; a
    run at the start or at the end of [s] leaves an empty segment there, and
    the empty string splits into one empty segment. *)
Fixpoint split_go (s : str) (cur : str) (in_sep : bool) : list str :=
  match s with
  | [] => [rev cur]
  | c :: s' =>
    if is_space c
    then (if in_sep then split_go s' cur true else rev cur :: split_go s' [] true)
    else split_go s' (c :: cur) false
  end.

Definition split_ws (s : str) : list str := split_go s [] false.

(* ================================================================== *)
(** ** Maps and sets of the source *)

Definition JSMap (V : Type) : Type := list (str * V).

Fixpoint map_get {V : Type} (k : str) (m : JSMap V) : option V :=
  match m with
  | [] => None
  | (k', v) :: m' => if str_eqb k k' then Some v else map_get k m'
  end.

(** [m.set(k, v)]: an existing key keeps its place, a new key goes last. *)
Fixpoint map_set {V : Type} (k : str) (v : V) (m : JSMap V) : JSMap V :=
  match m with
  | [] => [(k, v)]
  | (k', v') :: m' =>
    if str_eqb k k' then (k', v) :: m' else (k', v') :: map_set k v m'
  end.

Definition map_keys {V : Type} (m : JSMap V) : list str := map fst m.

(** [arr.push(x)] on the array stored under [key], or [map.set(key, [x])]. *)
Definition push_at {A : Type} (m : JSMap (list A)) (key : str) (x : A)
  : JSMap (list A) :=
  match map_get key m with
  | Some arr => map_set key (arr ++ [x]) m
  | None => map_set key [x] m
  end.

Definition NumSet : Type := list nat.

Definition set_has (i : nat) (s : NumSet) : bool := existsb (Nat.eqb i) s.

(** [s.add(i)] *)
Definition set_add (s : NumSet) (i : nat) : NumSet :=
  if set_has i s then s else s ++ [i].

(** [arr.forEach((i) => s.add(i))] *)
Definition add_all (s : NumSet) (arr : list nat) : NumSet :=
  fold_left set_add arr s.

(** A list with the position of each element, as [forEach((x, idx) => ...)]
    enumerates it. *)
Definition indexed {A : Type} (l : list A) : list (nat * A) :=
  combine (seq 0 (length l)) l.

(* ================================================================== *)
(** ** Data model ([types.ts]) *)

Inductive Currency : Type := USD | CNY | EUR | RUB.

Record TNVEDCode : Type := {
  code : str;
  name : str;
  description : str;
  category : str;
  importDuty : Q;
  minDutyAmount : option Q;
  minDutyCurrency : option Currency;
  vat : Q;
  excise : option Q;
  measureUnit : str
}.

(** [IndexedTNVED]: an entry with the fields precomputed by [searchIndex]. *)
Record IndexedTNVED : Type := {
  entry : TNVEDCode;
  _titleLower : str;
  _descLower : str;
  _titleStems : list str;
  _code2 : str;
  _code4 : str
}.

(** An element of [results]. *)
Record Scored : Type := {
  item : IndexedTNVED;
  score : Q;
  isRelevant : bool
}.

(** The three accumulators of the scoring loop. *)
Record Acc : Type := {
  acc_score : Q;
  subjectConfirmed : bool;
  matchedStemsCount : nat
}.

(** What a call yields: a value, or the exception raised by reading a field
    of [undefined]. *)
Inductive outcome (A : Type) : Type :=
| Ok (a : A)
| TypeError.
Arguments Ok {A} a.
Arguments TypeError {A}.

(* ================================================================== *)
(** ** Constants of the source *)

Definition STOP_WORDS : list str := map lit
  ["для"; "из"; "под"; "над"; "без"; "при"; "все"; "эти"; "этот"; "какой"; "такой";
   "сверху"; "снизу"; "внутри"; "комплект"; "набор"; "шт"; "кг"; "с"; "и"; "в"; "на";
   "бывший"; "новые"; "прочие"; "прочая"; "включая"; "кроме"; "использования";
   "предназначенный"]%string.

Definition STOP_WORDS_has (w : str) : bool := existsb (str_eqb w) STOP_WORDS.

(** The characters of the class [[.,!?;:]]. *)
Definition is_punct (c : N) : bool := existsb (N.eqb c) (lit ".,!?;:").

(** The alternatives of the suffix pattern, in the order of the source. *)
Definition SUFFIXES : list str := map lit
  ["иями"; "ями"; "иям"; "ям"; "иях"; "ях"; "овая"; "овое"; "овый"; "очные";
   "очный"; "ов"; "ев"; "ий"; "ый"; "ая"; "ое"; "ые"; "ие"; "ия"; "ой"; "ей";
   "ам"; "ом"; "а"; "и"; "ы"; "е"; "у"; "ю"; "ь"; "я"; "с"]%string.

(** [s.replace(/[.,!?;:]/g, '')] *)
Definition remove_punct (s : str) : str := filter (fun c => negb (is_punct c)) s.

(** [s.replace(/(...)$/g, '')].  The pattern is tried at each start
    position from the left; at a position it matches when one of the
    alternatives is exactly the rest of the string, and the rest is then
    deleted.  The next search starts at the end of the string, where no
    alternative (all are non-empty) matches. *)
Fixpoint replace_suffix (s : str) : str :=
  match s with
  | [] => []
  | c :: s' => if existsb (str_eqb s) SUFFIXES then [] else c :: replace_suffix s'
  end.

(** [a] ends with [s]. *)
Definition is_suffix (s a : str) : Prop := exists p, a = p ++ s.

(* ================================================================== *)
(** ** The exchange-rate fields ([ratesUI], [handleRateChange]) *)

(** The keys ['USD' | 'CNY' | 'EUR'] of [ratesUI]. *)
Inductive RateKey : Type := RateUSD | RateCNY | RateEUR.

Record RatesUI : Type := {
  ui_USD : str;
  ui_CNY : str;
  ui_EUR : str
}.

(** The initial state of [ratesUI]. *)
Definition initialRatesUI : RatesUI :=
  {| ui_USD := lit "91.8"; ui_CNY := lit "12.7"; ui_EUR := lit "98.5" |}.

(** A character of the class [[0-9\s.,]]. *)
Definition rate_char (c : N) : bool :=
  ((48 <=? c) && (c <=? 57))%N || is_space c || existsb (N.eqb c) (lit ".,").

(** [/^[0-9\s.,]*$/.test(value)] *)
Definition rate_input_ok (value : str) : bool := forallb rate_char value.

Definition get_rate (st : RatesUI) (key : RateKey) : str :=
  match key with
  | RateUSD => ui_USD st
  | RateCNY => ui_CNY st
  | RateEUR => ui_EUR st
  end.

(** [{ ...prev, [key]: value }] *)
Definition set_rate (prev : RatesUI) (key : RateKey) (value : str) : RatesUI :=
  match key with
  | RateUSD => {| ui_USD := value; ui_CNY := ui_CNY prev; ui_EUR := ui_EUR prev |}
  | RateCNY => {| ui_USD := ui_USD prev; ui_CNY := value; ui_EUR := ui_EUR prev |}
  | RateEUR => {| ui_USD := ui_USD prev; ui_CNY := ui_CNY prev; ui_EUR := value |}
  end.

Definition handleRateChange (prev : RatesUI) (key : RateKey) (value : str)
  : RatesUI :=
  if rate_input_ok value || str_eqb value []
  then set_rate prev key value else prev.

(** The state after a sequence of calls [handleRateChange(key, value)]. *)
Definition after_rate_changes (events : list (RateKey * str)) (st : RatesUI)
  : RatesUI :=
  fold_left (fun st e => handleRateChange st (fst e) (snd e)) events st.

Definition RateKey_eqb (a b : RateKey) : bool :=
  match a, b with
  | RateUSD, RateUSD | RateCNY, RateCNY | RateEUR, RateEUR => true
  | _, _ => false
  end.

(* ================================================================== *)
(** ** Sample data

    A lower-casing function for Basic Latin and the Cyrillic letters, which
    agrees with [toLowerCase] on every string used below, and small catalogs
    and synonym maps on which the statements are evaluated. *)

Definition lower_unit (c : N) : N :=
  if ((65 <=? c) && (c <=? 90))%N then (c + 32)%N
  else if ((1040 <=? c) && (c <=? 1071))%N then (c + 32)%N
  else if ((1024 <=? c) && (c <=? 1039))%N then (c + 80)%N
  else c.

Definition lower_basic (s : str) : str := map lower_unit s.

Definition sample_entry (c n d : string) : TNVEDCode :=
  {| code := lit c; name := lit n; description := lit d;
     category := lit "Товары";
     importDuty := 5; minDutyAmount := None; minDutyCurrency := None;
     vat := 20; excise := None; measureUnit := lit "шт" |}.

Definition sample_phone : TNVEDCode :=
  sample_entry "8517130000" "Смартфоны и телефоны сотовой связи"
               "Телефонные аппараты для сотовых сетей".

Definition sample_db : list TNVEDCode :=
  [sample_phone;
   sample_entry "8471300000" "Ноутбуки портативные"
                "Машины вычислительные массой не более 10 кг";
   sample_entry "8703231980" "Автомобили легковые"
                "Код 8703, прочие транспортные средства"]%string.

Definition sample_synonyms : list (str * list str) :=
  [(lit "8517", map lit ["смартфон"; "телефон"; "мобильный"]);
   (lit "8471", map lit ["Ноутбук"; "компьютер"])]%string.

(** A synonym map whose alias is a stop word, and one whose key has three
    characters. *)
Definition stop_word_synonyms : list (str * list str) :=
  [(lit "9503", [lit "набор"])]%string.

Definition sample_toy : TNVEDCode :=
  sample_entry "9503007000" "Игрушки в наборах" "Наборы игрушек".

Definition toy_db : list TNVEDCode := [sample_toy].

Definition short_key_synonyms : list (str * list str) :=
  [(lit "851", [lit "смартфон"])]%string.

(** A synonym map that sends a word of a title to a heading without
    entries. *)
Definition stray_synonyms : list (str * list str) :=
  [(lit "9999", [lit "телефон"])]%string.

(** A synonym map whose alias has two words. *)
Definition phrase_synonyms : list (str * list str) :=
  [(lit "8517", [lit "мобильный телефон"])]%string.




(* ================================================================== *)
(** ** The engine *)

Section Engine.

(** [String.prototype.toLowerCase]. *)
Variable toLowerCase : str -> str.

(** [Object.entries(SYNONYMS)]: code prefix and alias terms, in the order of
    enumeration. *)
Variable SYNONYMS : list (str * list str).

(** The catalog. *)
Variable TNVED_DB : list TNVEDCode.

(** The token as the suffix pattern sees it: lower case, trimmed, without
    punctuation. *)
Definition normalize (word : str) : str :=
  remove_punct (trim (toLowerCase word)).

Definition getStem (word : str) : str := replace_suffix (normalize word).

(** *** Synonym index *)

Definition add_term (codePrefix : str) (m : JSMap (list str)) (term : str)
  : JSMap (list str) :=
  let stem := getStem (trim (toLowerCase term)) in
  if length stem <? 2 then m else push_at m stem codePrefix.

Definition add_entry (m : JSMap (list str)) (e : str * list str)
  : JSMap (list str) :=
  fold_left (add_term (fst e)) (snd e) m.

Definition stemToPrefixes : JSMap (list str) := fold_left add_entry SYNONYMS [].

Definition add_bucket (ix : JSMap (list str)) (stem : str) : JSMap (list str) :=
  let key := slice0 3 stem in
  if length key <? 2 then ix else push_at ix key stem.

Definition stemPrefixIndex : JSMap (list str) :=
  fold_left add_bucket (map_keys stemToPrefixes) [].

(** *** Catalog index *)

Definition index_item (it : TNVEDCode) : IndexedTNVED :=
  let titleLower := toLowerCase (name it) in
  {| entry := it;
     _titleLower := titleLower;
     _descLower := toLowerCase (description it);
     _titleStems :=
       filter (fun s => 2 <=? length s) (map getStem (split_ws titleLower));
     _code2 := slice0 2 (code it);
     _code4 := slice0 4 (code it) |}.

Definition items : list IndexedTNVED := map index_item TNVED_DB.

(** [new Set(arr)] enumerated: first occurrences, in order. *)
Definition uniq (l : list str) : list str :=
  fold_left (fun seen s => if existsb (str_eqb s) seen then seen else seen ++ [s])
            l [].

Record Postings : Type := {
  byPrefix2 : JSMap (list nat);
  byPrefix4 : JSMap (list nat);
  byStem : JSMap (list nat)
}.

(** The body of [items.forEach((it, idx) => ...)]. *)
Definition index_step (ix : Postings) (p : nat * IndexedTNVED) : Postings :=
  let (idx, it) := p in
  {| byPrefix2 := push_at (byPrefix2 ix) (_code2 it) idx;
     byPrefix4 := push_at (byPrefix4 ix) (_code4 it) idx;
     byStem :=
       fold_left (fun m s => if length s <? 3 then m else push_at m s idx)
                 (uniq (_titleStems it)) (byStem ix) |}.

Definition searchIndex : Postings :=
  fold_left index_step (indexed items)
            {| byPrefix2 := []; byPrefix4 := []; byStem := [] |}.

(** *** Query planner *)

Definition trimmed (query : str) : str := toLowerCase (trim query).

Definition queryWords (query : str) : list str :=
  filter (fun w => (2 <=? length w) && negb (STOP_WORDS_has w))
         (map trim (split_ws (trimmed query))).

Definition queryStems (query : str) : list str :=
  filter (fun s => 2 <=? length s) (map getStem (queryWords query)).

(** The three early returns; [Some] of the stems when the search goes on. *)
Definition planQuery (query : str) : option (list str) :=
  if length (trimmed query) <? 2 then None
  else if length (queryWords query) =? 0 then None
  else if length (queryStems query) =? 0 then None
  else Some (queryStems query).

Definition addPrefixWeight (w : JSMap Q) (prefix : str) (weight : Q) : JSMap Q :=
  map_set prefix
    ((match map_get prefix w with Some x => x | None => 0 end) + weight)%Q w.

Definition importance (qIdx : nat) : Q := if qIdx =? 0 then 2.5%Q else 1.0%Q.

(** The calls [addPrefixWeight(prefix, 2000 * importance * quality)] that one
    query stem makes, as the list of their [(prefix, quality)] in the order
    of the calls: the direct hit ([direct && direct.length], then [return]),
    or else the containment matches within the stem's bucket. *)
Definition stem_hits (qStem : str) : list (str * Q) :=
  match map_get qStem stemToPrefixes with
  | Some (p :: ps) => map (fun prefix => (prefix, 1.2%Q)) (p :: ps)
  | _ =>
    let bucketKey := slice0 3 qStem in
    let bucket :=
      match map_get bucketKey stemPrefixIndex with Some b => b | None => [] end in
    flat_map
      (fun mapStem =>
         if includes qStem mapStem || includes mapStem qStem then
           match map_get mapStem stemToPrefixes with
           | None => []
           | Some prefixes =>
             let matchQuality := if str_eqb mapStem qStem then 1.2%Q else 0.8%Q in
             map (fun prefix => (prefix, matchQuality)) prefixes
           end
         else [])
      bucket
  end.

(** The body of [queryStems.forEach((qStem, qIdx) => ...)]. *)
Definition expand_step (w : JSMap Q) (p : nat * str) : JSMap Q :=
  let (qIdx, qStem) := p in
  fold_left
    (fun w h => addPrefixWeight w (fst h) (2000 * importance qIdx * snd h)%Q)
    (stem_hits qStem) w.

Definition codePrefixWeights (stems : list str) : JSMap Q :=
  fold_left expand_step (indexed stems) [].

Definition from_postings (m : JSMap (list nat)) (key : str) (c : NumSet)
  : NumSet :=
  match map_get key m with
  | Some arr => add_all c arr
  | None => c
  end.

Definition addCandidatesFromPrefix (c : NumSet) (prefix : str) : NumSet :=
  if length prefix =? 2 then from_postings (byPrefix2 searchIndex) prefix c
  else if length prefix =? 4 then from_postings (byPrefix4 searchIndex) prefix c
  else
    let p4 := slice0 4 prefix in
    if length p4 =? 4 then from_postings (byPrefix4 searchIndex) p4 c else c.

(** The candidates of the prefix signal. *)
Definition prefix_candidates (w : JSMap Q) : NumSet :=
  fold_left addCandidatesFromPrefix (map_keys w) [].

(** The candidates of the title-stem postings. *)
Definition stem_candidates (stems : list str) : NumSet :=
  fold_left (fun c s => from_postings (byStem searchIndex) s c) stems [].

(** The limited scan. *)
Definition scan_candidates : NumSet :=
  add_all [] (seq 0 (Nat.min (length items) 3000)).

Definition candidates (stems : list str) : NumSet :=
  let w := codePrefixWeights stems in
  if 0 <? length w then prefix_candidates w
  else
    let c := stem_candidates stems in
    if length c =? 0 then scan_candidates else c.

(** *** Scorer *)

(** A) the prefix signal of one weighted prefix. *)
Definition prefix_matches (it : IndexedTNVED) (prefix : str) : bool :=
  if (length prefix =? 2) && str_eqb (_code2 it) prefix then true
  else if (length prefix =? 4) && str_eqb (_code4 it) prefix then true
  else negb (length prefix =? 2) && negb (length prefix =? 4)
       && startsWith (code (entry it)) prefix.

Definition prefix_step (it : IndexedTNVED) (a : Acc) (pw : str * Q) : Acc :=
  if prefix_matches it (fst pw)
  then {| acc_score := (acc_score a + snd pw)%Q;
          subjectConfirmed := true;
          matchedStemsCount := matchedStemsCount a |}
  else a.

(** B) the text match of one query stem. *)
Definition title_match (it : IndexedTNVED) (qStem : str) : bool :=
  existsb (fun ts => includes ts qStem || includes qStem ts) (_titleStems it).

Definition desc_match (it : IndexedTNVED) (qStem : str) : bool :=
  includes (_descLower it) qStem.

Definition text_step (it : IndexedTNVED) (a : Acc) (p : nat * str) : Acc :=
  let (qIdx, qStem) := p in
  let isPrimary := qIdx =? 0 in
  if title_match it qStem
  then {| acc_score := (acc_score a + (if isPrimary then 4000 else 1500))%Q;
          subjectConfirmed := true;
          matchedStemsCount := S (matchedStemsCount a) |}
  else if desc_match it qStem
  then {| acc_score := (acc_score a + 100)%Q;
          subjectConfirmed := subjectConfirmed a;
          matchedStemsCount := S (matchedStemsCount a) |}
  else a.

Definition score_item (stems : list str) (prefixesArray : list (str * Q))
    (it : IndexedTNVED) : Acc :=
  let a0 := {| acc_score := 0; subjectConfirmed := false;
               matchedStemsCount := 0 |} in
  let a1 := if 0 <? length prefixesArray
            then fold_left (prefix_step it) prefixesArray a0 else a0 in
  fold_left (text_step it) (indexed stems) a1.

Definition matchDensity (stems : list str) (a : Acc) : Q :=
  (inject_Z (Z.of_nat (matchedStemsCount a))
   / inject_Z (Z.of_nat (length stems)))%Q.

Definition relevant (stems : list str) (a : Acc) : bool :=
  subjectConfirmed a &&
  (if length stems =? 1
   then negb (Qle_bool (acc_score a) 800)
   else Qle_bool 0.4 (matchDensity stems a)).

(** The loop [for (const idx of candidates)], with [results] threaded. *)
Fixpoint score_loop (stems : list str) (prefixesArray : list (str * Q))
    (cands : list nat) (results : list Scored) : outcome (list Scored) :=
  match cands with
  | [] => Ok results
  | idx :: rest =>
    match nth_error items idx with
    | None => TypeError
    | Some it =>
      let a := score_item stems prefixesArray it in
      score_loop stems prefixesArray rest
        (if relevant stems a
         then results ++ [{| item := it; score := acc_score a;
                             isRelevant := relevant stems a |}]
         else results)
    end
  end.

(** [results.sort((a, b) => b.score - a.score)]: the sort is stable, so
    the result is the stable arrangement by descending score. *)
Fixpoint insert_desc (x : Scored) (l : list Scored) : list Scored :=
  match l with
  | [] => [x]
  | y :: l' =>
    if negb (Qle_bool (score y) (score x))
    then y :: insert_desc x l' else x :: l
  end.

Definition sort_desc (l : list Scored) : list Scored :=
  fold_right insert_desc [] l.

(** The relevant candidates, in candidate order. *)
Definition scored (stems : list str) : outcome (list Scored) :=
  score_loop stems (codePrefixWeights stems) (candidates stems) [].

Definition handleSearchLocal (query : str) : outcome (list IndexedTNVED) :=
  match planQuery query with
  | None => Ok []
  | Some stems =>
    match scored stems with
    | TypeError => TypeError
    | Ok results => Ok (firstn 30 (map item (sort_desc results)))
    end
  end.

(* ------------------------------------------------------------------ *)
(** *** Notions used by the statements *)


(** [holds m k x]: [x] is in the array stored under [k]. *)
Definition holds {A : Type} (m : JSMap (list A)) (k : str) (x : A) : Prop :=
  exists arr, map_get k m = Some arr /\ In x arr.

(** Every posting of [m] points at an entry of [items] related to its key. *)
Definition sound_postings (R : IndexedTNVED -> str -> Prop)
    (m : JSMap (list nat)) : Prop :=
  forall k i, holds m k i -> exists it, nth_error items i = Some it /\ R it k.

(** The three posting maps point at entries that carry their keys. *)
Definition sound_index (ix : Postings) : Prop :=
  sound_postings (fun it k => _code2 it = k) (byPrefix2 ix) /\
  sound_postings (fun it k => _code4 it = k) (byPrefix4 ix) /\
  sound_postings (fun it k => In k (_titleStems it)) (byStem ix).

(** [j] is in the postings that [addCandidatesFromPrefix] reads for
    [prefix]. *)
Definition in_prefix_postings (prefix : str) (j : nat) : Prop :=
  (length prefix = 2 /\ holds (byPrefix2 searchIndex) prefix j) \/
  (length prefix = 4 /\ holds (byPrefix4 searchIndex) prefix j) \/
  (length prefix <> 2 /\ length prefix <> 4 /\
   length (slice0 4 prefix) = 4 /\
   holds (byPrefix4 searchIndex) (slice0 4 prefix) j).

(** What the loop pushes for one candidate. *)
Definition kept_of (stems : list str) (pa : list (str * Q)) (idx : nat)
  : list Scored :=
  match nth_error items idx with
  | None => []
  | Some it =>
    let a := score_item stems pa it in
    if relevant stems a
    then [{| item := it; score := acc_score a; isRelevant := relevant stems a |}]
    else []
  end.

(** [results] when the loop ends: the relevant candidates, in the order of
    the candidates. *)
Definition kept (stems : list str) : list Scored :=
  flat_map (kept_of stems (codePrefixWeights stems)) (candidates stems).

(** The value returned when the planner yields [stems]. *)
Definition ranked (stems : list str) : list IndexedTNVED :=
  firstn 30 (map item (sort_desc (kept stems))).

(** The stem matches the title stems or the description of [it]. *)
Definition text_matched (it : IndexedTNVED) (qStem : str) : bool :=
  title_match it qStem || desc_match it qStem.

(** One of the weights added by the stem is a prefix signal of [it]. *)
Definition prefix_signal (it : IndexedTNVED) (qStem : str) : bool :=
  existsb (fun h => prefix_matches it (fst h)) (stem_hits qStem).

(** The stem matches [it] by its title, its description or a prefix
    signal. *)
Definition stem_matched (it : IndexedTNVED) (qStem : str) : bool :=
  text_matched it qStem || prefix_signal it qStem.

(** Every weight in the map is at least the smallest single weight. *)
Definition weights_ok (w : JSMap Q) : Prop :=
  forall k x, In (k, x) w -> (1600 <= x)%Q.

(** [m.get(k) || []]: the array stored under [k], empty when there is
    none. *)
Definition posting {A : Type} (m : JSMap (list A)) (k : str) : list A :=
  match map_get k m with
  | Some arr => arr
  | None => []
  end.

(** The positions, counted from [k], of the elements of [l] that satisfy
    [P], in increasing order. *)
Fixpoint positions {A : Type} (P : A -> bool) (k : nat) (l : list A)
  : list nat :=
  match l with
  | [] => []
  | x :: l' => (if P x then [k] else []) ++ positions P (S k) l'
  end.

(** The score that the scoring loop gives to [it] for [stems]. *)
Definition final_score (stems : list str) (it : IndexedTNVED) : Q :=
  acc_score (score_item stems (codePrefixWeights stems) it).

(** The stem under which the synonym index registers an alias term. *)
Definition alias_stem (a : str) : str := getStem (trim (toLowerCase a)).

(** A query stem reaches the index entry of the alias [a]: it is the stem
    of the alias (the direct hit), or it is not an indexed stem, lies in the
    bucket of the alias's stem and contains that stem or is contained in it
    (the approximate hit). *)
Definition reaches_alias (qStem a : str) : Prop :=
  qStem = alias_stem a \/
  (2 <= length (alias_stem a) /\
   ~ In qStem (map_keys stemToPrefixes) /\
   slice0 3 qStem = slice0 3 (alias_stem a) /\
   (includes qStem (alias_stem a) || includes (alias_stem a) qStem) = true).

(** An alias of a single word that survives the planner: trimmed and in
    lower case it has no white space and at least 2 code units, is not a
    stop word, and its stem has at least 2 code units. *)
Definition single_word_alias (a : str) : Prop :=
  let w := toLowerCase (trim a) in
  (forall c, In c w -> is_space c = false) /\
  trim (toLowerCase a) = w /\
  2 <= length w /\
  STOP_WORDS_has w = false /\
  2 <= length (getStem w).

(* ================================================================== *)
(** ** Strings, maps and sets: basic facts *)

Lemma str_eqb_eq (a b : str) : str_eqb a b = true <-> a = b.
Proof.
  revert b; induction a as [|x a IH]; intros [|y b]; simpl; split;
    try congruence; try reflexivity.
  - intros H. apply andb_true_iff in H as [Hx Hab].
    apply N.eqb_eq in Hx. apply IH in Hab. congruence.
  - intros H. injection H as -> ->. rewrite N.eqb_refl. simpl. now apply IH.
Qed.

Lemma str_eqb_refl (a : str) : str_eqb a a = true.
Proof. now apply str_eqb_eq. Qed.

Lemma str_eqb_neq (a b : str) : str_eqb a b = false <-> a <> b.
Proof.
  split.
  - intros H E. apply str_eqb_eq in E. congruence.
  - intros H. destruct (str_eqb a b) eqn:E; [|reflexivity].
    apply str_eqb_eq in E. contradiction.
Qed.

Lemma existsb_str_eqb (s : str) (l : list str) :
  existsb (str_eqb s) l = true <-> In s l.
Proof.
  rewrite existsb_exists. split.
  - intros (x & Hx & E). apply str_eqb_eq in E. now subst.
  - intros H. exists s. split; [assumption | apply str_eqb_refl].
Qed.

Lemma startsWith_app (s p : str) :
  startsWith s p = true <-> exists r, s = p ++ r.
Proof.
  revert s; induction p as [|c p IH]; intros s; simpl.
  - split; [intros _; now exists s | reflexivity].
  - destruct s as [|d s].
    + split; [discriminate | intros [r Hr]; discriminate].
    + rewrite andb_true_iff, N.eqb_eq, IH. split.
      * intros [-> [r ->]]. now exists r.
      * intros [r Hr]. injection Hr as -> ->. split; [reflexivity | now exists r].
Qed.

Lemma startsWith_firstn (s p : str) (n : nat) :
  startsWith s p = true -> n <= length p -> firstn n s = firstn n p.
Proof.
  intros H Hn. apply startsWith_app in H as [r ->].
  rewrite firstn_app. replace (n - length p) with 0 by lia.
  simpl. now rewrite app_nil_r.
Qed.

Lemma includes_refl (s : str) : includes s s = true.
Proof.
  destruct s; simpl; [reflexivity|].
  rewrite N.eqb_refl. simpl.
  replace (startsWith s s) with true; [reflexivity|].
  symmetry. apply startsWith_app. exists []. now rewrite app_nil_r.
Qed.

Section MapFacts.
Context {V : Type}.
Implicit Types (m : JSMap V) (k : str) (v : V).

Lemma map_get_set_same m k v : map_get k (map_set k v m) = Some v.
Proof.
  induction m as [|[k' v'] m IH]; simpl.
  - now rewrite str_eqb_refl.
  - destruct (str_eqb k k') eqn:E; simpl; rewrite E; [reflexivity | exact IH].
Qed.

Lemma map_get_set_other m k k' v :
  k' <> k -> map_get k' (map_set k v m) = map_get k' m.
Proof.
  intros Hne. induction m as [|[k0 v0] m IH]; simpl.
  - apply str_eqb_neq in Hne. now rewrite Hne.
  - destruct (str_eqb k k0) eqn:E; simpl.
    + apply str_eqb_eq in E. subst k0.
      apply str_eqb_neq in Hne. now rewrite Hne.
    + now rewrite IH.
Qed.

Lemma map_get_In m k v : map_get k m = Some v -> In (k, v) m.
Proof.
  induction m as [|[k' v'] m IH]; simpl; [discriminate|].
  destruct (str_eqb k k') eqn:E.
  - apply str_eqb_eq in E. intros [= ->]. left. now subst.
  - intros H. right. now apply IH.
Qed.

Lemma map_get_key m k v : map_get k m = Some v -> In k (map_keys m).
Proof.
  intros H. apply map_get_In in H. unfold map_keys.
  change k with (fst (k, v)). now apply in_map.
Qed.

Lemma map_key_get m k : In k (map_keys m) -> exists v, map_get k m = Some v.
Proof.
  induction m as [|[k' v'] m IH]; simpl; [contradiction|].
  intros H. destruct (str_eqb k k') eqn:E; [now exists v'|].
  destruct H as [H|H]; [|now apply IH].
  apply str_eqb_neq in E. congruence.
Qed.

End MapFacts.

(** What [push_at] does to a lookup. *)
Lemma push_at_get {A : Type} (m : JSMap (list A)) (key k : str) (x : A) :
  map_get k (push_at m key x) =
  if str_eqb k key
  then Some (match map_get key m with Some arr => arr ++ [x] | None => [x] end)
  else map_get k m.
Proof.
  unfold push_at. destruct (str_eqb k key) eqn:E.
  - apply str_eqb_eq in E. subst k.
    destruct (map_get key m); apply map_get_set_same.
  - apply str_eqb_neq in E.
    destruct (map_get key m); now apply map_get_set_other.
Qed.

Lemma holds_push_new {A : Type} (m : JSMap (list A)) (key : str) (x : A) :
  holds (push_at m key x) key x.
Proof.
  unfold holds. rewrite push_at_get, str_eqb_refl.
  eexists. split; [reflexivity|].
  destruct (map_get key m); [apply in_or_app; right|]; now left.
Qed.

Lemma holds_push_old {A : Type} (m : JSMap (list A)) (key k : str) (x y : A) :
  holds m k y -> holds (push_at m key x) k y.
Proof.
  intros (arr & Hg & Hin). unfold holds. rewrite push_at_get.
  destruct (str_eqb k key) eqn:E.
  - apply str_eqb_eq in E. subst k. rewrite Hg.
    eexists. split; [reflexivity|]. apply in_or_app. now left.
  - now exists arr.
Qed.

Lemma holds_push_inv {A : Type} (m : JSMap (list A)) (key k : str) (x y : A) :
  holds (push_at m key x) k y -> holds m k y \/ (k = key /\ y = x).
Proof.
  intros (arr & Hg & Hin). rewrite push_at_get in Hg.
  destruct (str_eqb k key) eqn:E.
  - apply str_eqb_eq in E. subst k. injection Hg as <-.
    destruct (map_get key m) as [arr0|] eqn:E0.
    + apply in_app_or in Hin as [H|[H|[]]].
      * left. now exists arr0.
      * right. now split.
    + destruct Hin as [H|[]]. right. now split.
  - left. now exists arr.
Qed.

Lemma set_add_In (s : NumSet) (i j : nat) :
  In j (set_add s i) <-> In j s \/ j = i.
Proof.
  unfold set_add, set_has. destruct (existsb (Nat.eqb i) s) eqn:E.
  - split; [now left|]. intros [H | ->]; [assumption|].
    apply existsb_exists in E as (x & Hx & Ex).
    apply Nat.eqb_eq in Ex. now subst.
  - rewrite in_app_iff. simpl. intuition.
Qed.

Lemma add_all_In (arr : list nat) (s : NumSet) (j : nat) :
  In j (add_all s arr) <-> In j s \/ In j arr.
Proof.
  unfold add_all. revert s.
  induction arr as [|i arr IH]; intros s; simpl; [intuition|].
  rewrite IH, set_add_In. intuition.
Qed.

Lemma add_all_fresh (arr : list nat) (s : NumSet) :
  NoDup arr -> (forall x, In x arr -> ~ In x s) -> add_all s arr = s ++ arr.
Proof.
  unfold add_all. revert s.
  induction arr as [|i arr IH]; intros s Hnd Hs; simpl.
  - now rewrite app_nil_r.
  - inversion Hnd as [|? ? Hi Hnd']; subst.
    assert (E : set_add s i = s ++ [i]).
    { unfold set_add, set_has.
      destruct (existsb (Nat.eqb i) s) eqn:E; [|reflexivity].
      apply existsb_exists in E as (x & Hx & Ex).
      apply Nat.eqb_eq in Ex. subst x. exfalso.
      apply (Hs i); [now left | assumption]. }
    rewrite E, IH; [now rewrite <- app_assoc | assumption |].
    intros x Hx Hin. apply in_app_or in Hin as [Hin|[<- |[]]].
    + apply (Hs x); [now right | assumption].
    + contradiction.
Qed.

Lemma indexed_from_In {A : Type} (l : list A) (k i : nat) (x : A) :
  In (i, x) (combine (seq k (length l)) l) <->
  k <= i /\ nth_error l (i - k) = Some x.
Proof.
  revert k; induction l as [|y l IH]; intros k; simpl.
  - split; [contradiction|]. intros [_ H]. destruct (i - k); discriminate.
  - rewrite IH. split.
    + intros [H|[Hle Hn]].
      * injection H as -> ->. split; [lia|]. now rewrite Nat.sub_diag.
      * split; [lia|]. replace (i - k) with (S (i - S k)) by lia. exact Hn.
    + intros [Hle Hn]. destruct (i - k) as [|d] eqn:E.
      * left. injection Hn as ->. f_equal. lia.
      * right. split; [lia|]. replace (i - S k) with d by lia. exact Hn.
Qed.

Lemma indexed_In {A : Type} (l : list A) (i : nat) (x : A) :
  In (i, x) (indexed l) <-> nth_error l i = Some x.
Proof.
  unfold indexed. rewrite indexed_from_In, Nat.sub_0_r. intuition lia.
Qed.

(** A loop whose body only adds, to what the accumulator holds, what its
    current element contributes. *)
Lemma fold_left_gathers {A B C : Type} (f : A -> B -> A)
    (mem : C -> A -> Prop) (gives : B -> C -> Prop) :
  (forall a b j, mem j (f a b) <-> mem j a \/ gives b j) ->
  forall l a j,
    mem j (fold_left f l a) <-> mem j a \/ exists b, In b l /\ gives b j.
Proof.
  intros Hf. induction l as [|b l IH]; intros a j; simpl.
  - split; [now left|]. intros [H|(b & [] & _)]. exact H.
  - rewrite IH, Hf. split.
    + intros [[H|H]|(b' & Hb' & H)].
      * now left.
      * right. exists b. split; [now left | assumption].
      * right. exists b'. split; [now right | assumption].
    + intros [H|(b' & [<-|Hb'] & H)].
      * now left; left.
      * now left; right.
      * right. now exists b'.
Qed.

(* ================================================================== *)
(** ** The stemmer *)

Lemma SUFFIXES_nonempty : ~ In [] SUFFIXES.
Proof.
  intros H. apply existsb_str_eqb in H. vm_compute in H. discriminate.
Qed.

Lemma is_suffix_cons (x s : str) (c : N) :
  is_suffix x (c :: s) -> x = c :: s \/ is_suffix x s.
Proof.
  intros [[|d p] Hp]; simpl in Hp.
  - now left.
  - right. injection Hp as _ ->. now exists p.
Qed.

Lemma is_suffix_length (x s : str) : is_suffix x s -> length x <= length s.
Proof. intros [p ->]. rewrite length_app. lia. Qed.

Lemma replace_suffix_cons (c : N) (s : str) :
  replace_suffix (c :: s) =
  if existsb (str_eqb (c :: s)) SUFFIXES then [] else c :: replace_suffix s.
Proof. reflexivity. Qed.

(** [replace_suffix] deletes the longest listed suffix, or nothing. *)
Lemma replace_suffix_spec (s : str) :
  (replace_suffix s = s /\ forall x, In x SUFFIXES -> ~ is_suffix x s) \/
  (exists x, In x SUFFIXES /\ s = replace_suffix s ++ x /\
             forall x', In x' SUFFIXES -> is_suffix x' s ->
                        length x' <= length x).
Proof.
  induction s as [|c s IH].
  - left. split; [reflexivity|]. intros x Hx [p Hp].
    symmetry in Hp. apply app_eq_nil in Hp as [_ ->].
    now apply SUFFIXES_nonempty.
  - rewrite replace_suffix_cons.
    destruct (existsb (str_eqb (c :: s)) SUFFIXES) eqn:E.
    + right. exists (c :: s). apply existsb_str_eqb in E.
      split; [assumption|]. split; [reflexivity|].
      intros x' _ Hx'. now apply is_suffix_length.
    + assert (Hnot : ~ In (c :: s) SUFFIXES).
      { intros H. apply existsb_str_eqb in H. congruence. }
      destruct IH as [[Heq Hno]|(x & Hx & Hs & Hmax)].
      * left. split; [now rewrite Heq|].
        intros x Hx Hsuf. apply is_suffix_cons in Hsuf as [->|Hsuf].
        -- contradiction.
        -- now apply (Hno x).
      * right. exists x. split; [assumption|]. split.
        -- simpl. now rewrite <- Hs.
        -- intros x' Hx' Hsuf. apply is_suffix_cons in Hsuf as [->|Hsuf].
           ++ contradiction.
           ++ now apply Hmax.
Qed.

Lemma replace_suffix_whole (s : str) : In s SUFFIXES -> replace_suffix s = [].
Proof.
  intros H. destruct s as [|c s]; [reflexivity|].
  rewrite replace_suffix_cons.
  apply existsb_str_eqb in H. now rewrite H.
Qed.

(** C3 (as amended). For every token, [getStem] lowers, trims and removes
    the punctuation, and then deletes at most one suffix: when no listed
    suffix ends the normalized token it is returned unchanged; otherwise
    exactly the longest listed suffix that ends it is deleted, with no guard
    on what is left, so a token that is itself a listed suffix yields the
    empty string. *)
Theorem getStem_strips_longest_suffix (word : str) :
  ((forall x, In x SUFFIXES -> ~ is_suffix x (normalize word)) /\
   getStem word = normalize word)
  \/
  (exists x, In x SUFFIXES /\ normalize word = getStem word ++ x /\
     (forall x', In x' SUFFIXES -> is_suffix x' (normalize word) ->
                 length x' <= length x) /\
     (getStem word = [] <-> In (normalize word) SUFFIXES)).
Proof.
  unfold getStem.
  destruct (replace_suffix_spec (normalize word)) as [[Heq Hno]|(x & Hx & Hs & Hmax)].
  - left. now split.
  - right. exists x. repeat split; try assumption.
    + intros Hnil. rewrite Hnil in Hs. simpl in Hs. now rewrite Hs.
    + apply replace_suffix_whole.
Qed.

(* ================================================================== *)
(** ** The catalog index *)
Lemma sound_postings_push R m key i it :
  sound_postings R m -> nth_error items i = Some it -> R it key ->
  sound_postings R (push_at m key i).
Proof.
  intros Hm Hn HR k j Hh. apply holds_push_inv in Hh as [Hh|[-> ->]].
  - now apply Hm.
  - now exists it.
Qed.

Lemma uniq_In_gen (l seen : list str) (s : str) :
  In s (fold_left (fun seen s =>
          if existsb (str_eqb s) seen then seen else seen ++ [s]) l seen) ->
  In s seen \/ In s l.
Proof.
  revert seen; induction l as [|x l IH]; intros seen; simpl; [now left|].
  intros H. apply IH in H as [H|H]; [|now right; right].
  destruct (existsb (str_eqb x) seen); [now left|].
  apply in_app_or in H as [H|[H|[]]]; [now left | now right; left].
Qed.

Lemma uniq_In (l : list str) (s : str) : In s (uniq l) -> In s l.
Proof. intros H. apply uniq_In_gen in H as [[]|H]. exact H. Qed.

Lemma sound_stem_pushes i it (l : list str) m :
  nth_error items i = Some it ->
  (forall s, In s l -> In s (_titleStems it)) ->
  sound_postings (fun it k => In k (_titleStems it)) m ->
  sound_postings (fun it k => In k (_titleStems it))
    (fold_left (fun m s => if length s <? 3 then m else push_at m s i) l m).
Proof.
  intros Hn. revert m; induction l as [|s l IH]; intros m Hl Hm; simpl;
    [assumption|].
  apply IH; [intros s' Hs'; apply Hl; now right|].
  destruct (length s <? 3); [assumption|].
  apply sound_postings_push with (it := it); try assumption.
  apply Hl. now left.
Qed.

Lemma index_step_sound ix i it :
  nth_error items i = Some it -> sound_index ix ->
  sound_index (index_step ix (i, it)).
Proof.
  intros Hn (H2 & H4 & Hs). unfold index_step. repeat split; simpl.
  - now apply sound_postings_push with (it := it).
  - now apply sound_postings_push with (it := it).
  - apply sound_stem_pushes with (it := it); try assumption.
    intros s. apply uniq_In.
Qed.

Lemma fold_index_step_sound (l : list (nat * IndexedTNVED)) ix :
  (forall p, In p l -> nth_error items (fst p) = Some (snd p)) ->
  sound_index ix -> sound_index (fold_left index_step l ix).
Proof.
  revert ix; induction l as [|[i it] l IH]; intros ix Hl Hix; simpl;
    [assumption|].
  apply IH; [intros p Hp; apply Hl; now right|].
  apply index_step_sound; [|assumption]. apply (Hl (i, it)). now left.
Qed.

Lemma searchIndex_sound : sound_index searchIndex.
Proof.
  apply fold_index_step_sound.
  - intros [i it] H. now apply indexed_In.
  - repeat split; intros k i (arr & Hg & _); discriminate.
Qed.

(** The postings by code prefix are complete. *)
Lemma index_step_keeps ix p k j :
  (holds (byPrefix2 ix) k j -> holds (byPrefix2 (index_step ix p)) k j) /\
  (holds (byPrefix4 ix) k j -> holds (byPrefix4 (index_step ix p)) k j).
Proof.
  destruct p as [i it]. split; intros H; simpl; now apply holds_push_old.
Qed.

Lemma fold_index_step_keeps (l : list (nat * IndexedTNVED)) ix k j :
  (holds (byPrefix2 ix) k j ->
   holds (byPrefix2 (fold_left index_step l ix)) k j) /\
  (holds (byPrefix4 ix) k j ->
   holds (byPrefix4 (fold_left index_step l ix)) k j).
Proof.
  revert ix; induction l as [|p l IH]; intros ix; simpl; [now split|].
  destruct (IH (index_step ix p)) as [I2 I4].
  destruct (index_step_keeps ix p k j) as [S2 S4].
  split; intros H; [apply I2, S2 | apply I4, S4]; exact H.
Qed.

Lemma fold_index_step_complete (l : list (nat * IndexedTNVED)) ix i it :
  In (i, it) l ->
  holds (byPrefix2 (fold_left index_step l ix)) (_code2 it) i /\
  holds (byPrefix4 (fold_left index_step l ix)) (_code4 it) i.
Proof.
  revert ix; induction l as [|p l IH]; intros ix; simpl; [contradiction|].
  intros [->|H]; [|now apply IH].
  destruct (fold_index_step_keeps l (index_step ix (i, it)) (_code2 it) i)
    as [K2 _].
  destruct (fold_index_step_keeps l (index_step ix (i, it)) (_code4 it) i)
    as [_ K4].
  split; [apply K2 | apply K4]; simpl; apply holds_push_new.
Qed.

Lemma searchIndex_complete i it :
  nth_error items i = Some it ->
  holds (byPrefix2 searchIndex) (_code2 it) i /\
  holds (byPrefix4 searchIndex) (_code4 it) i.
Proof.
  intros H. apply fold_index_step_complete. now apply indexed_In.
Qed.

(* ================================================================== *)
(** ** The synonym index *)

Lemma add_term_keeps p m t k q :
  holds m k q -> holds (add_term p m t) k q.
Proof.
  intros H. unfold add_term.
  destruct (length _ <? 2); [assumption | now apply holds_push_old].
Qed.

Lemma fold_add_term_keeps p (ts : list str) m k q :
  holds m k q -> holds (fold_left (add_term p) ts m) k q.
Proof.
  revert m; induction ts as [|t ts IH]; intros m H; simpl; [assumption|].
  now apply IH, add_term_keeps.
Qed.

Lemma fold_add_entry_keeps (es : list (str * list str)) m k q :
  holds m k q -> holds (fold_left add_entry es m) k q.
Proof.
  revert m; induction es as [|e es IH]; intros m H; simpl; [assumption|].
  apply IH. unfold add_entry. now apply fold_add_term_keeps.
Qed.

Lemma fold_add_term_complete p (ts : list str) m a :
  In a ts -> 2 <= length (getStem (trim (toLowerCase a))) ->
  holds (fold_left (add_term p) ts m) (getStem (trim (toLowerCase a))) p.
Proof.
  revert m; induction ts as [|t ts IH]; intros m Hin Hlen; simpl;
    [contradiction|].
  destruct Hin as [->|Hin]; [|now apply IH].
  apply fold_add_term_keeps. unfold add_term.
  destruct (Nat.ltb_spec (length (getStem (trim (toLowerCase a)))) 2); [lia|].
  apply holds_push_new.
Qed.

(** Every usable alias is indexed under its stem. *)
Lemma stemToPrefixes_complete p terms a :
  In (p, terms) SYNONYMS -> In a terms ->
  2 <= length (getStem (trim (toLowerCase a))) ->
  holds stemToPrefixes (getStem (trim (toLowerCase a))) p.
Proof.
  unfold stemToPrefixes. generalize (@nil (str * list str)).
  induction SYNONYMS as [|e es IH]; intros m Hin Ha Hlen; simpl;
    [contradiction|].
  destruct Hin as [->|Hin]; [|now apply IH].
  apply fold_add_entry_keeps. unfold add_entry. simpl.
  now apply fold_add_term_complete.
Qed.

(* ================================================================== *)
(** ** Candidates *)

Lemma from_postings_In m key c j :
  In j (from_postings m key c) <-> In j c \/ holds m key j.
Proof.
  unfold from_postings, holds. destruct (map_get key m) as [arr|].
  - rewrite add_all_In. split; intros [H|H]; auto.
    + right. now exists arr.
    + destruct H as (arr' & [= <-] & H). now right.
  - split; [now left|]. intros [H|(arr & Hg & _)]; [assumption|discriminate].
Qed.

Lemma addCandidatesFromPrefix_In c prefix j :
  In j (addCandidatesFromPrefix c prefix) <->
  In j c \/ in_prefix_postings prefix j.
Proof.
  unfold addCandidatesFromPrefix, in_prefix_postings.
  destruct (Nat.eqb_spec (length prefix) 2) as [E2|E2].
  - rewrite from_postings_In. intuition lia.
  - destruct (Nat.eqb_spec (length prefix) 4) as [E4|E4].
    + rewrite from_postings_In. intuition lia.
    + destruct (Nat.eqb_spec (length (slice0 4 prefix)) 4) as [E|E].
      * rewrite from_postings_In. intuition lia.
      * intuition lia.
Qed.

Lemma fold_addCandidates_In (ps : list str) c j :
  In j (fold_left addCandidatesFromPrefix ps c) <->
  In j c \/ exists p, In p ps /\ in_prefix_postings p j.
Proof.
  apply (fold_left_gathers addCandidatesFromPrefix (fun j c => In j c)
           (fun p j => in_prefix_postings p j)).
  intros a b k. apply addCandidatesFromPrefix_In.
Qed.

Lemma prefix_candidates_In w j :
  In j (prefix_candidates w) <->
  exists p, In p (map_keys w) /\ in_prefix_postings p j.
Proof.
  unfold prefix_candidates. rewrite fold_addCandidates_In.
  split; [intros [[]|H]; exact H | now right].
Qed.

Lemma fold_stem_candidates_In (stems : list str) c j :
  In j (fold_left (fun c s => from_postings (byStem searchIndex) s c) stems c)
  <-> In j c \/ exists s, In s stems /\ holds (byStem searchIndex) s j.
Proof.
  apply (fold_left_gathers
           (fun c s => from_postings (byStem searchIndex) s c)
           (fun j c => In j c)
           (fun s j => holds (byStem searchIndex) s j)).
  intros a b k. apply from_postings_In.
Qed.

Lemma stem_candidates_In stems j :
  In j (stem_candidates stems) <->
  exists s, In s stems /\ holds (byStem searchIndex) s j.
Proof.
  unfold stem_candidates. rewrite fold_stem_candidates_In.
  split; [intros [[]|H]; exact H | now right].
Qed.

Lemma scan_candidates_eq :
  scan_candidates = seq 0 (Nat.min (length items) 3000).
Proof.
  unfold scan_candidates. rewrite add_all_fresh; [reflexivity | |].
  - apply seq_NoDup.
  - intros x _ [].
Qed.

Lemma holds_in_range R m k j :
  sound_postings R m -> holds m k j -> j < length items.
Proof.
  intros Hs Hh. destruct (Hs k j Hh) as (it & Hn & _).
  apply nth_error_Some. congruence.
Qed.

Lemma in_prefix_postings_range p j :
  in_prefix_postings p j -> j < length items.
Proof.
  destruct searchIndex_sound as (S2 & S4 & _).
  intros [[_ H]|[[_ H]|(_ & _ & _ & H)]];
    eauto using holds_in_range.
Qed.

(** Every candidate is a position of [items]. *)
Lemma candidates_in_range stems j :
  In j (candidates stems) -> j < length items.
Proof.
  unfold candidates.
  destruct (0 <? length (codePrefixWeights stems)).
  - intros H. apply prefix_candidates_In in H as (p & _ & H).
    now apply in_prefix_postings_range in H.
  - destruct (length (stem_candidates stems) =? 0).
    + rewrite scan_candidates_eq. intros H. apply in_seq in H. lia.
    + intros H. apply stem_candidates_In in H as (s & _ & H).
      destruct searchIndex_sound as (_ & _ & Ss).
      eauto using holds_in_range.
Qed.

(* ================================================================== *)
(** ** The scoring loop and the ranking *)
Lemma score_loop_ok stems pa (cands : list nat) rs :
  (forall i, In i cands -> i < length items) ->
  score_loop stems pa cands rs = Ok (rs ++ flat_map (kept_of stems pa) cands).
Proof.
  revert rs; induction cands as [|i cands IH]; intros rs Hr; simpl.
  - now rewrite app_nil_r.
  - unfold kept_of at 1.
    destruct (nth_error items i) as [it|] eqn:E.
    + rewrite IH by (intros j Hj; apply Hr; now right).
      destruct (relevant stems (score_item stems pa it));
        [now rewrite <- app_assoc | reflexivity].
    + exfalso. apply nth_error_None in E.
      specialize (Hr i (or_introl eq_refl)). lia.
Qed.

Lemma scored_ok stems : scored stems = Ok (kept stems).
Proof.
  unfold scored, kept. rewrite score_loop_ok; [reflexivity|].
  apply candidates_in_range.
Qed.

Lemma handleSearchLocal_eq query :
  handleSearchLocal query =
  Ok (match planQuery query with None => [] | Some stems => ranked stems end).
Proof.
  unfold handleSearchLocal. destruct (planQuery query) as [stems|];
    [|reflexivity].
  now rewrite scored_ok.
Qed.

Lemma In_firstn {A : Type} (n : nat) (l : list A) (x : A) :
  In x (firstn n l) -> In x l.
Proof.
  intros H. rewrite <- (firstn_skipn n l). apply in_or_app. now left.
Qed.

Lemma insert_desc_perm x l : Permutation (insert_desc x l) (x :: l).
Proof.
  induction l as [|y l IH]; simpl; [reflexivity|].
  destruct (negb (Qle_bool (score y) (score x))); [|reflexivity].
  rewrite IH. apply perm_swap.
Qed.

Lemma sort_desc_perm l : Permutation (sort_desc l) l.
Proof.
  induction l as [|x l IH]; simpl; [reflexivity|].
  rewrite insert_desc_perm. now constructor.
Qed.

Lemma kept_In stems r :
  In r (kept stems) <->
  exists idx, In idx (candidates stems) /\
    nth_error items idx = Some (item r) /\
    relevant stems (score_item stems (codePrefixWeights stems) (item r)) = true /\
    r = {| item := item r;
           score := acc_score (score_item stems (codePrefixWeights stems) (item r));
           isRelevant := true |}.
Proof.
  unfold kept. rewrite in_flat_map. split.
  - intros (idx & Hc & Hk). exists idx. split; [assumption|].
    unfold kept_of in Hk. destruct (nth_error items idx) as [it|]; [|contradiction].
    destruct (relevant stems _) eqn:E; [|contradiction].
    destruct Hk as [<-|[]]. simpl. now rewrite E.
  - intros (idx & Hc & Hn & Hr & Heq). exists idx. split; [assumption|].
    unfold kept_of. rewrite Hn, Hr. left. now rewrite Heq at 3.
Qed.

(** Whatever is returned was a relevant candidate. *)
Lemma ranked_In stems it :
  In it (ranked stems) ->
  exists idx, In idx (candidates stems) /\ nth_error items idx = Some it /\
    relevant stems (score_item stems (codePrefixWeights stems) it) = true.
Proof.
  unfold ranked. intros H. apply In_firstn in H.
  apply in_map_iff in H as (r & <- & Hr).
  apply (Permutation_in _ (sort_desc_perm _)) in Hr.
  apply kept_In in Hr as (idx & Hc & Hn & Hrel & _). now exists idx.
Qed.

(** A relevant candidate is returned when the cap does not bite. *)
Lemma ranked_complete stems idx it :
  In idx (candidates stems) -> nth_error items idx = Some it ->
  relevant stems (score_item stems (codePrefixWeights stems) it) = true ->
  length (kept stems) <= 30 -> In it (ranked stems).
Proof.
  intros Hc Hn Hrel Hlen. unfold ranked.
  rewrite firstn_all2.
  - apply in_map_iff.
    exists {| item := it;
              score := acc_score (score_item stems (codePrefixWeights stems) it);
              isRelevant := true |}.
    split; [reflexivity|].
    apply (Permutation_in _ (Permutation_sym (sort_desc_perm _))).
    apply kept_In. exists idx. simpl. auto.
  - rewrite length_map, (Permutation_length (sort_desc_perm _)). exact Hlen.
Qed.

(* ================================================================== *)
(** ** The score of one candidate *)
Lemma prefix_step_count it a pw :
  matchedStemsCount (prefix_step it a pw) = matchedStemsCount a.
Proof. unfold prefix_step. now destruct (prefix_matches it (fst pw)). Qed.

Lemma prefix_fold_count it (pa : list (str * Q)) a :
  matchedStemsCount (fold_left (prefix_step it) pa a) = matchedStemsCount a.
Proof.
  revert a; induction pa as [|pw pa IH]; intros a; simpl; [reflexivity|].
  now rewrite IH, prefix_step_count.
Qed.

Lemma text_fold_count it (stems : list str) k a :
  matchedStemsCount
    (fold_left (text_step it) (combine (seq k (length stems)) stems) a) =
  matchedStemsCount a + length (filter (text_matched it) stems).
Proof.
  revert k a; induction stems as [|s stems IH]; intros k a; simpl; [lia|].
  rewrite IH. unfold text_matched at 2.
  destruct (title_match it s); simpl; [lia|].
  destruct (desc_match it s); simpl; lia.
Qed.

(** The matched-stem count of a candidate counts the text matches only. *)
Lemma score_item_count stems pa it :
  matchedStemsCount (score_item stems pa it) =
  length (filter (text_matched it) stems).
Proof.
  unfold score_item, indexed. rewrite text_fold_count.
  destruct (0 <? length pa); [rewrite prefix_fold_count|]; reflexivity.
Qed.

Lemma filter_length_le {A : Type} (f g : A -> bool) (l : list A) :
  (forall x, f x = true -> g x = true) ->
  length (filter f l) <= length (filter g l).
Proof.
  intros Hfg. induction l as [|x l IH]; simpl; [lia|].
  destruct (f x) eqn:Ef.
  - rewrite (Hfg x Ef). simpl. lia.
  - destruct (g x); simpl; lia.
Qed.

Lemma filter_length_pos {A : Type} (f : A -> bool) (l : list A) :
  0 < length (filter f l) -> exists x, In x l /\ f x = true.
Proof.
  intros H. destruct (filter f l) as [|x r] eqn:E; [simpl in H; lia|].
  exists x. apply filter_In. rewrite E. now left.
Qed.

Lemma density_ceiling (m n : nat) :
  0 < n ->
  Qle_bool 0.4 (inject_Z (Z.of_nat m) / inject_Z (Z.of_nat n)) = true ->
  (Qceiling (0.4 * inject_Z (Z.of_nat n)) <= Z.of_nat m)%Z.
Proof.
  intros Hn H. apply Qle_bool_iff in H.
  rewrite <- (Qceiling_Z (Z.of_nat m)). apply Qceiling_resp_le.
  assert (Hq : (0 < inject_Z (Z.of_nat n))%Q).
  { replace 0%Q with (inject_Z 0) by reflexivity. rewrite <- Zlt_Qlt. lia. }
  apply (Qmult_le_r _ _ _ Hq) in H.
  eapply Qle_trans; [exact H|].
  unfold Qdiv. rewrite <- Qmult_assoc, (Qmult_comm (/ _)), Qmult_inv_r.
  - rewrite Qmult_1_r. apply Qle_refl.
  - intros E. rewrite E in Hq. apply (Qlt_irrefl _ Hq).
Qed.

Lemma density_pos (m n : nat) :
  Qle_bool 0.4 (inject_Z (Z.of_nat m) / inject_Z (Z.of_nat n)) = true -> 0 < m.
Proof.
  intros H. apply Qle_bool_iff in H. destruct m; [|lia]. exfalso.
  simpl in H. unfold Qdiv in H. rewrite Qmult_0_l in H.
  revert H. unfold Qle; simpl; lia.
Qed.

(** The relevance decision, read back. *)
Lemma relevant_single stems a :
  length stems = 1 -> relevant stems a = true ->
  subjectConfirmed a = true /\ (800 < acc_score a)%Q.
Proof.
  unfold relevant. intros -> H. simpl in H.
  apply andb_true_iff in H as [Hs Hq]. split; [assumption|].
  apply Qnot_le_lt. intros Hle. apply Qle_bool_iff in Hle.
  rewrite Hle in Hq. discriminate.
Qed.

Lemma relevant_multi stems a :
  2 <= length stems -> relevant stems a = true ->
  subjectConfirmed a = true /\
  Qle_bool 0.4 (matchDensity stems a) = true.
Proof.
  unfold relevant. intros Hlen H.
  destruct (Nat.eqb_spec (length stems) 1) as [E|E]; [lia|].
  now apply andb_true_iff in H.
Qed.

Lemma planQuery_stems query stems :
  planQuery query = Some stems -> stems = queryStems query.
Proof.
  unfold planQuery.
  destruct (length (trimmed query) <? 2); [discriminate|].
  destruct (length (queryWords query) =? 0); [discriminate|].
  destruct (length (queryStems query) =? 0); [discriminate|].
  congruence.
Qed.

Lemma search_returns query : exists l, handleSearchLocal query = Ok l.
Proof. eexists. apply handleSearchLocal_eq. Qed.

(** What is returned comes from [ranked] of the query's stems. *)
Lemma returned_In query l it :
  handleSearchLocal query = Ok l -> In it l ->
  In it (ranked (queryStems query)).
Proof.
  rewrite handleSearchLocal_eq. intros [= <-].
  destruct (planQuery query) as [stems|] eqn:E; [|contradiction].
  apply planQuery_stems in E. now subst.
Qed.

(* ================================================================== *)
(** ** Properties of the search *)

(** C5. For every query, whatever the catalog and the synonym map the
    indexes were built from, [handleSearchLocal] returns a list: the only
    operation that could throw, the read of [searchIndex.items[idx]], is
    always applied to a position of [items]. *)
Theorem handleSearchLocal_never_throws (query : str) :
  exists l, handleSearchLocal query = Ok l.
Proof. eexists. apply handleSearchLocal_eq. Qed.

(** C7. For every query and every catalog, the returned list has at most
    30 entries. *)
Theorem handleSearchLocal_at_most_30 (query : str) :
  exists l, handleSearchLocal query = Ok l /\ length l <= 30.
Proof.
  eexists. split; [apply handleSearchLocal_eq|].
  destruct (planQuery query); simpl; [|lia].
  unfold ranked. rewrite length_firstn. lia.
Qed.

(** C8. For every query with exactly one stem, the search returns a list
    and every entry of it has its subject confirmed and a raw score, the
    sum of its prefix and text signals, strictly above 800. *)
Theorem single_stem_score_above_floor (query : str) :
  length (queryStems query) = 1 ->
  exists l, handleSearchLocal query = Ok l /\
    forall it, In it l ->
      let a := score_item (queryStems query)
                 (codePrefixWeights (queryStems query)) it in
      subjectConfirmed a = true /\ (800 < acc_score a)%Q.
Proof.
  intros H1. destruct (search_returns query) as [l Hl].
  exists l. split; [assumption|]. intros it Hin.
  apply (returned_In _ _ _ Hl) in Hin.
  apply ranked_In in Hin as (idx & _ & _ & Hrel).
  exact (relevant_single _ _ H1 Hrel).
Qed.

(** C2 (as amended). For every query with N >= 2 stems, N being the
    length of the stem list the planner produces, in which a repeated word
    counts once for each occurrence (so N distinct stems when they are
    pairwise distinct), the search returns a list and every entry of it
    matches at least ceil(0.4 * N) of those stem occurrences, a stem being
    matched when it matches a title stem, occurs in the description, or gave
    weight to a prefix of the entry's code. *)
Theorem multi_stem_density (query : str) :
  2 <= length (queryStems query) ->
  exists l, handleSearchLocal query = Ok l /\
    forall it, In it l ->
      (Qceiling (0.4 * inject_Z (Z.of_nat (length (queryStems query))))
       <= Z.of_nat (length (filter (stem_matched it) (queryStems query))))%Z.
Proof.
  intros H2. destruct (search_returns query) as [l Hl].
  exists l. split; [assumption|]. intros it Hin.
  apply (returned_In _ _ _ Hl) in Hin.
  apply ranked_In in Hin as (idx & _ & _ & Hrel).
  apply relevant_multi in Hrel as [_ Hd]; [|assumption].
  unfold matchDensity in Hd. rewrite score_item_count in Hd.
  apply density_ceiling in Hd; [|lia].
  eapply Z.le_trans; [exact Hd|]. apply inj_le.
  apply filter_length_le. intros s Hs. unfold stem_matched. now rewrite Hs.
Qed.

(** C9. For every query with at least two stems, every returned entry has
    a query stem that matches one of its title stems (containment in either
    direction) or occurs in its lower-case description; an entry with no
    such stem is never returned, whatever its prefix signal, because the
    matched-stem count of a candidate counts the text matches only. *)
Theorem multi_stem_needs_text_match (query : str) :
  2 <= length (queryStems query) ->
  exists l, handleSearchLocal query = Ok l /\
    (forall it, In it l ->
       exists qStem, In qStem (queryStems query) /\
         (title_match it qStem = true \/ desc_match it qStem = true)) /\
    (forall it,
       (forall qStem, In qStem (queryStems query) ->
          title_match it qStem = false /\ desc_match it qStem = false) ->
       ~ In it l) /\
    (forall it pa,
       matchedStemsCount (score_item (queryStems query) pa it) =
       length (filter (text_matched it) (queryStems query))).
Proof.
  intros H2. destruct (search_returns query) as [l Hl].
  exists l. split; [assumption|].
  assert (Hex : forall it, In it l ->
            exists qStem, In qStem (queryStems query) /\
              (title_match it qStem = true \/ desc_match it qStem = true)).
  { intros it Hin. apply (returned_In _ _ _ Hl) in Hin.
    apply ranked_In in Hin as (idx & _ & _ & Hrel).
    apply relevant_multi in Hrel as [_ Hd]; [|assumption].
    unfold matchDensity in Hd. rewrite score_item_count in Hd.
    apply density_pos, filter_length_pos in Hd as (s & Hs & Hm).
    exists s. split; [assumption|]. now apply orb_true_iff in Hm. }
  split; [exact Hex|]. split.
  - intros it Hno Hin. destruct (Hex it Hin) as (s & Hs & Hm).
    destruct (Hno s Hs) as [Ht Hd]. destruct Hm; congruence.
  - intros it pa. apply score_item_count.
Qed.

(* ------------------------------------------------------------------ *)
(** *** Degenerate queries *)

Lemma trimStart_all_space (s : str) :
  (forall c, In c s -> is_space c = true) -> trimStart s = [].
Proof.
  induction s as [|c s IH]; intros H; [reflexivity|].
  cbn [trimStart]. rewrite (H c (or_introl eq_refl)).
  apply IH. intros d Hd. apply H. now right.
Qed.


Lemma no_member_nil {A : Type} (l : list A) : (forall x, ~ In x l) -> l = [].
Proof. destruct l as [|x l]; [reflexivity|]. intros H. destruct (H x). now left. Qed.


(* ------------------------------------------------------------------ *)
(** *** The bare code fragment "8703" *)

Lemma title_match_own_stem it s :
  In s (_titleStems it) -> title_match it s = true.
Proof.
  intros H. unfold title_match. apply existsb_exists.
  exists s. split; [assumption|]. now rewrite includes_refl.
Qed.

(** C1 (as amended). When the query is the bare code fragment "8703", no
    alias gives weight to a code prefix and no entry has a title stem that
    contains "8703" or is contained in it, the search takes the limited
    scan of the leading min(|catalog|, 3000) entries as candidates and
    returns the empty list: an occurrence of "8703" in a description adds
    100 to the score but never confirms the subject. *)
Theorem bare_code_query_scans_and_returns_nothing :
  toLowerCase (lit "8703") = lit "8703" ->
  codePrefixWeights [lit "8703"] = [] ->
  (forall it, In it items -> title_match it (lit "8703") = false) ->
  planQuery (lit "8703") = Some [lit "8703"] /\
  candidates [lit "8703"] = seq 0 (Nat.min (length items) 3000) /\
  handleSearchLocal (lit "8703") = Ok [].
Proof.
  intros Hlow Hw Ht.
  assert (Htr : trimmed (lit "8703") = lit "8703").
  { unfold trimmed. replace (trim (lit "8703")) with (lit "8703") by reflexivity.
    exact Hlow. }
  assert (Hqw : queryWords (lit "8703") = [lit "8703"]).
  { unfold queryWords. rewrite Htr. reflexivity. }
  assert (Hqs : queryStems (lit "8703") = [lit "8703"]).
  { unfold queryStems. rewrite Hqw. unfold getStem, normalize.
    cbn [map]. rewrite Hlow. reflexivity. }
  assert (Hp : planQuery (lit "8703") = Some [lit "8703"]).
  { unfold planQuery. rewrite Htr, Hqw, Hqs. reflexivity. }
  split; [assumption|]. split.
  - unfold candidates. rewrite Hw. cbn [length Nat.ltb Nat.leb].
    assert (E : stem_candidates [lit "8703"] = []).
    { apply no_member_nil. intros j Hj.
      apply stem_candidates_In in Hj as (s & [<-|[]] & Hh).
      destruct searchIndex_sound as (_ & _ & Ss).
      destruct (Ss _ _ Hh) as (it & Hn & Hin).
      apply title_match_own_stem in Hin.
      rewrite (Ht it) in Hin; [discriminate|].
      eapply nth_error_In; eassumption. }
    rewrite E. cbn [length Nat.eqb]. apply scan_candidates_eq.
  - rewrite handleSearchLocal_eq, Hp. unfold ranked.
    replace (kept [lit "8703"]) with (@nil Scored); [reflexivity|].
    symmetry. apply no_member_nil. intros r Hr.
    apply kept_In in Hr as (idx & _ & Hn & Hrel & _).
    apply relevant_single in Hrel as [Hs _]; [|reflexivity].
    rewrite Hw in Hs. unfold score_item, indexed in Hs.
    cbn [length Nat.ltb Nat.leb seq combine fold_left text_step] in Hs.
    rewrite (Ht (item r)) in Hs by (eapply nth_error_In; eassumption).
    destruct (desc_match (item r) (lit "8703")); discriminate.
Qed.

(* ------------------------------------------------------------------ *)
(** *** The weighted prefixes *)

Lemma map_set_In_inv {V : Type} (m : JSMap V) (k k' : str) (v x : V) :
  In (k', x) (map_set k v m) -> In (k', x) m \/ x = v.
Proof.
  induction m as [|[k0 v0] m IH]; simpl.
  - intros [[= _ <-]|[]]. now right.
  - destruct (str_eqb k k0); simpl.
    + intros [[= _ <-]|H]; [now right | now left; right].
    + intros [H|H]; [now left; left|]. apply IH in H as [H|H]; auto.
Qed.

Lemma map_set_keys {V : Type} (m : JSMap V) (k k' : str) (v : V) :
  In k' (map_keys (map_set k v m)) <-> In k' (map_keys m) \/ k' = k.
Proof.
  unfold map_keys. induction m as [|[k0 v0] m IH]; simpl.
  - intuition.
  - destruct (str_eqb k k0) eqn:E; simpl.
    + apply str_eqb_eq in E. subst k0. intuition.
    + rewrite IH. intuition.
Qed.

Lemma addPrefixWeight_ok w prefix weight :
  weights_ok w -> (1600 <= weight)%Q ->
  weights_ok (addPrefixWeight w prefix weight).
Proof.
  intros Hw Hge k x Hin. unfold addPrefixWeight in Hin.
  apply map_set_In_inv in Hin as [Hin| ->]; [now apply (Hw k)|].
  destruct (map_get prefix w) as [x0|] eqn:E.
  - apply map_get_In, Hw in E. lra.
  - lra.
Qed.

Lemma stem_hits_quality qStem h :
  In h (stem_hits qStem) -> snd h = 1.2%Q \/ snd h = 0.8%Q.
Proof.
  unfold stem_hits.
  assert (Hb : forall b,
    In h (flat_map (fun mapStem =>
      if includes qStem mapStem || includes mapStem qStem
      then match map_get mapStem stemToPrefixes with
           | None => []
           | Some prefixes =>
             map (fun prefix =>
               (prefix, if str_eqb mapStem qStem then 1.2%Q else 0.8%Q))
               prefixes
           end
      else []) b) -> snd h = 1.2%Q \/ snd h = 0.8%Q).
  { intros b Hin. apply in_flat_map in Hin as (ms & _ & Hin).
    destruct (includes qStem ms || includes ms qStem); [|contradiction].
    destruct (map_get ms stemToPrefixes); [|contradiction].
    apply in_map_iff in Hin as (pf & <- & _). simpl.
    destruct (str_eqb ms qStem); auto. }
  destruct (map_get qStem stemToPrefixes) as [[|p ps]|]; try apply Hb.
  intros Hin. apply in_map_iff in Hin as (pf & <- & _). now left.
Qed.

Lemma hit_weight_ge qIdx (q : Q) :
  q = 1.2%Q \/ q = 0.8%Q -> (1600 <= 2000 * importance qIdx * q)%Q.
Proof.
  unfold importance.
  intros [-> | ->]; destruct (qIdx =? 0); apply Qle_bool_iff; reflexivity.
Qed.

Lemma fold_hits_ok qIdx (hits : list (str * Q)) w :
  (forall h, In h hits -> snd h = 1.2%Q \/ snd h = 0.8%Q) ->
  weights_ok w ->
  weights_ok (fold_left (fun w h =>
    addPrefixWeight w (fst h) (2000 * importance qIdx * snd h)%Q) hits w).
Proof.
  revert w; induction hits as [|h hits IH]; intros w Hq Hw; simpl;
    [assumption|].
  apply IH; [intros h' Hh'; apply Hq; now right|].
  apply addPrefixWeight_ok; [assumption|].
  apply hit_weight_ge, Hq. now left.
Qed.

Lemma fold_hits_keys qIdx (hits : list (str * Q)) w k :
  In k (map_keys (fold_left (fun w h =>
    addPrefixWeight w (fst h) (2000 * importance qIdx * snd h)%Q) hits w)) <->
  In k (map_keys w) \/ In k (map fst hits).
Proof.
  revert w; induction hits as [|h hits IH]; intros w; simpl; [intuition|].
  rewrite IH. unfold addPrefixWeight. rewrite map_set_keys.
  intuition.
Qed.

Lemma fold_expand_ok (l : list (nat * str)) w :
  weights_ok w -> weights_ok (fold_left expand_step l w).
Proof.
  revert w; induction l as [|[i s] l IH]; intros w Hw; simpl; [assumption|].
  apply IH. apply fold_hits_ok; [apply stem_hits_quality | assumption].
Qed.

Lemma fold_expand_keys (l : list (nat * str)) w k :
  In k (map_keys (fold_left expand_step l w)) <->
  In k (map_keys w) \/
  exists s, In s (map snd l) /\ In k (map fst (stem_hits s)).
Proof.
  rewrite (fold_left_gathers expand_step (fun k w => In k (map_keys w))
             (fun p k => In k (map fst (stem_hits (snd p))))).
  - split; (intros [H|H]; [now left | right]).
    + destruct H as ([i s] & Hin & H). exists s.
      split; [|exact H]. change s with (snd (i, s)). now apply in_map.
    + destruct H as (s & Hin & H).
      apply in_map_iff in Hin as (q & <- & Hq). now exists q.
  - intros a [i s] k'. unfold expand_step. apply fold_hits_keys.
Qed.

Lemma indexed_snd {A : Type} (l : list A) : map snd (indexed l) = l.
Proof.
  unfold indexed. generalize 0.
  induction l as [|x l IH]; intros k; simpl; [reflexivity|]. now rewrite IH.
Qed.

Lemma codePrefixWeights_ok stems : weights_ok (codePrefixWeights stems).
Proof. apply fold_expand_ok. intros k x []. Qed.

(** The weighted prefixes are those reached by some query stem. *)
Lemma codePrefixWeights_keys stems k :
  In k (map_keys (codePrefixWeights stems)) <->
  exists s, In s stems /\ In k (map fst (stem_hits s)).
Proof.
  unfold codePrefixWeights. rewrite fold_expand_keys, indexed_snd.
  split; [intros [[]|H]; exact H | now right].
Qed.

(** With a weighted prefix the candidates are exactly those of the prefix
    postings. *)
Lemma candidates_with_prefix_signal stems :
  codePrefixWeights stems <> [] ->
  candidates stems = prefix_candidates (codePrefixWeights stems).
Proof.
  intros H. unfold candidates.
  destruct (codePrefixWeights stems); [congruence | reflexivity].
Qed.

(** The entries a prefix posting points at. *)
Lemma in_prefix_postings_sound prefix j :
  in_prefix_postings prefix j ->
  exists it, nth_error items j = Some it /\
    (_code2 it = prefix \/ _code4 it = prefix \/ _code4 it = slice0 4 prefix).
Proof.
  destruct searchIndex_sound as (S2 & S4 & _).
  intros [[_ H]|[[_ H]|(_ & _ & _ & H)]].
  - destruct (S2 _ _ H) as (it & Hn & E). exists it. auto.
  - destruct (S4 _ _ H) as (it & Hn & E). exists it. auto.
  - destruct (S4 _ _ H) as (it & Hn & E). exists it. auto.
Qed.

Lemma prefix_signal_confines_candidates stems :
  (exists p x, map_get p (codePrefixWeights stems) = Some x /\ (0 < x)%Q) ->
  candidates stems = prefix_candidates (codePrefixWeights stems) /\
  forall j, In j (candidates stems) ->
    exists p, In p (map_keys (codePrefixWeights stems)) /\
      in_prefix_postings p j /\
      exists it, nth_error items j = Some it /\
        (_code2 it = p \/ _code4 it = p \/ _code4 it = slice0 4 p).
Proof.
  intros (p & x & Hg & _).
  assert (E : candidates stems = prefix_candidates (codePrefixWeights stems)).
  { apply candidates_with_prefix_signal. intros Hnil.
    rewrite Hnil in Hg. discriminate. }
  split; [assumption|]. intros j Hj. rewrite E in Hj.
  apply prefix_candidates_In in Hj as (q & Hq & Hpost).
  exists q. split; [assumption|]. split; [assumption|].
  now apply in_prefix_postings_sound.
Qed.

(* ------------------------------------------------------------------ *)
(** *** Lower bounds on a score *)

Lemma prefix_step_mono it a pw :
  (0 <= snd pw)%Q ->
  (acc_score a <= acc_score (prefix_step it a pw))%Q /\
  (subjectConfirmed a = true -> subjectConfirmed (prefix_step it a pw) = true).
Proof.
  intros Hpw. unfold prefix_step.
  destruct (prefix_matches it (fst pw)); simpl; split; auto; lra.
Qed.

Lemma prefix_fold_mono it (pa : list (str * Q)) a :
  (forall pw, In pw pa -> (0 <= snd pw)%Q) ->
  (acc_score a <= acc_score (fold_left (prefix_step it) pa a))%Q /\
  (subjectConfirmed a = true ->
   subjectConfirmed (fold_left (prefix_step it) pa a) = true).
Proof.
  revert a; induction pa as [|pw pa IH]; intros a Hpa; simpl.
  - split; [lra | auto].
  - destruct (prefix_step_mono it a pw) as [M1 M2];
      [apply Hpa; now left|].
    destruct (IH (prefix_step it a pw)) as [I1 I2];
      [intros pw' H; apply Hpa; now right|].
    split; [lra | auto].
Qed.

Lemma prefix_fold_hit it (pa : list (str * Q)) a p x :
  In (p, x) pa -> prefix_matches it p = true ->
  (forall pw, In pw pa -> (0 <= snd pw)%Q) -> (0 <= acc_score a)%Q ->
  (x <= acc_score (fold_left (prefix_step it) pa a))%Q /\
  subjectConfirmed (fold_left (prefix_step it) pa a) = true.
Proof.
  revert a; induction pa as [|pw pa IH]; intros a Hin Hm Hpa Ha; simpl;
    [contradiction|].
  assert (Hrest : forall pw', In pw' pa -> (0 <= snd pw')%Q)
    by (intros pw' H; apply Hpa; now right).
  destruct Hin as [->|Hin].
  - destruct (prefix_fold_mono it pa (prefix_step it a (p, x)) Hrest)
      as [I1 I2].
    unfold prefix_step in *. simpl in *. rewrite Hm in *. simpl in *.
    split; [lra | auto].
  - destruct (prefix_step_mono it a pw) as [M1 _]; [apply Hpa; now left|].
    apply IH; try assumption. lra.
Qed.

Lemma text_fold_mono it (l : list (nat * str)) a :
  (acc_score a <= acc_score (fold_left (text_step it) l a))%Q /\
  (subjectConfirmed a = true ->
   subjectConfirmed (fold_left (text_step it) l a) = true).
Proof.
  revert a; induction l as [|[i s] l IH]; intros a; simpl.
  - split; [lra | auto].
  - destruct (IH (text_step it a (i, s))) as [I1 I2].
    unfold text_step in *.
    destruct (title_match it s); simpl in *.
    + split; [destruct (i =? 0); lra | auto].
    + destruct (desc_match it s); simpl in *; split; auto; lra.
Qed.

Lemma score_item_prefix_hit stems pa it p x :
  In (p, x) pa -> prefix_matches it p = true ->
  (forall pw, In pw pa -> (0 <= snd pw)%Q) ->
  (x <= acc_score (score_item stems pa it))%Q /\
  subjectConfirmed (score_item stems pa it) = true.
Proof.
  intros Hin Hm Hpa. unfold score_item.
  destruct pa as [|pw pa']; [contradiction|].
  set (pa := pw :: pa') in *.
  change (0 <? length pa) with true. cbv iota.
  destruct (prefix_fold_hit it pa
              {| acc_score := 0; subjectConfirmed := false;
                 matchedStemsCount := 0 |} p x Hin Hm Hpa) as [H1 H2];
    [simpl; lra|].
  destruct (text_fold_mono it (indexed stems)
              (fold_left (prefix_step it) pa
                 {| acc_score := 0; subjectConfirmed := false;
                    matchedStemsCount := 0 |})) as [T1 T2].
  split; [lra | auto].
Qed.

Lemma items_nth i it :
  nth_error items i = Some it ->
  exists e, nth_error TNVED_DB i = Some e /\ it = index_item e.
Proof.
  unfold items. rewrite nth_error_map.
  destruct (nth_error TNVED_DB i) as [e|]; [|discriminate].
  intros [= <-]. now exists e.
Qed.

(** An entry that carries the prefix is in the postings read for it. *)
Lemma prefix_matches_in_postings i it p :
  nth_error items i = Some it -> prefix_matches it p = true ->
  length p = 2 \/ 4 <= length p -> in_prefix_postings p i.
Proof.
  intros Hn Hm Hlen. destruct (searchIndex_complete i it Hn) as [C2 C4].
  unfold prefix_matches in Hm. unfold in_prefix_postings.
  destruct (Nat.eqb_spec (length p) 2) as [E2|E2].
  - left. split; [assumption|].
    destruct (str_eqb (_code2 it) p) eqn:E; simpl in Hm.
    + apply str_eqb_eq in E. now rewrite <- E.
    + destruct (Nat.eqb_spec (length p) 4); [lia|]. discriminate.
  - right. simpl in Hm. destruct (Nat.eqb_spec (length p) 4) as [E4|E4].
    + left. split; [assumption|].
      destruct (str_eqb (_code4 it) p) eqn:E; simpl in Hm; [|discriminate].
      apply str_eqb_eq in E. now rewrite <- E.
    + right. simpl in Hm. repeat split; try assumption.
      * unfold slice0. rewrite length_firstn. lia.
      * destruct (items_nth i it Hn) as (e & _ & ->).
        unfold index_item in C4, Hm. cbn [_code4 entry] in C4, Hm.
        unfold slice0 in *.
        rewrite <- (startsWith_firstn (code e) p 4 Hm) by lia. exact C4.
Qed.

(* ================================================================== *)
(** ** The indexes as lookup tables *)

Lemma posting_push_at {A : Type} (m : JSMap (list A)) (key k : str) (x : A) :
  posting (push_at m key x) k =
  posting m k ++ (if str_eqb k key then [x] else []).
Proof.
  unfold posting. rewrite push_at_get.
  destruct (str_eqb k key) eqn:E.
  - apply str_eqb_eq in E. subst k. now destruct (map_get key m).
  - now rewrite app_nil_r.
Qed.

Lemma posting_holds {A : Type} (m : JSMap (list A)) (k : str) (x : A) :
  holds m k x <-> In x (posting m k).
Proof.
  unfold holds, posting. destruct (map_get k m) as [arr|].
  - split; [intros (a & [= <-] & H); exact H | intros H; now exists arr].
  - split; [intros (a & H & _); discriminate | contradiction].
Qed.

(** No array of the map is empty. *)
Lemma push_at_nonempty {A : Type} (m : JSMap (list A)) (key : str) (x : A) :
  (forall k, map_get k m <> Some []) ->
  forall k, map_get k (push_at m key x) <> Some [].
Proof.
  intros Hm k. rewrite push_at_get. destruct (str_eqb k key); [|apply Hm].
  destruct (map_get key m) as [[|y arr]|]; discriminate.
Qed.

Lemma posting_present {A : Type} (m : JSMap (list A)) (k : str) :
  (forall k', map_get k' m <> Some []) ->
  (map_get k m = None <-> posting m k = []).
Proof.
  intros Hm. unfold posting. specialize (Hm k).
  destruct (map_get k m) as [arr|]; split; try congruence; reflexivity.
Qed.

(** *** The synonym index *)

Lemma posting_add_term p m t s :
  posting (add_term p m t) s =
  posting m s ++
  (if (2 <=? length s) && str_eqb s (getStem (trim (toLowerCase t)))
   then [p] else []).
Proof.
  unfold add_term. set (st := getStem (trim (toLowerCase t))).
  destruct (Nat.ltb_spec (length st) 2) as [Hlt|Hge].
  - destruct (str_eqb s st) eqn:E.
    + apply str_eqb_eq in E. subst s.
      destruct (Nat.leb_spec 2 (length st)); [lia|].
      now rewrite app_nil_r.
    + now rewrite andb_false_r, app_nil_r.
  - rewrite posting_push_at. destruct (str_eqb s st) eqn:E.
    + apply str_eqb_eq in E. subst s.
      now destruct (Nat.leb_spec 2 (length st)); [|lia].
    + now rewrite andb_false_r.
Qed.

Lemma posting_fold_add_term p (ts : list str) m s :
  posting (fold_left (add_term p) ts m) s =
  posting m s ++
  flat_map (fun a =>
    if (2 <=? length s) && str_eqb s (getStem (trim (toLowerCase a)))
    then [p] else []) ts.
Proof.
  revert m; induction ts as [|t ts IH]; intros m; simpl.
  - now rewrite app_nil_r.
  - now rewrite IH, posting_add_term, <- app_assoc.
Qed.

Lemma posting_fold_add_entry (es : list (str * list str)) m s :
  posting (fold_left add_entry es m) s =
  posting m s ++
  flat_map (fun e =>
    flat_map (fun a =>
      if (2 <=? length s) && str_eqb s (getStem (trim (toLowerCase a)))
      then [fst e] else []) (snd e)) es.
Proof.
  revert m; induction es as [|e es IH]; intros m; simpl.
  - now rewrite app_nil_r.
  - rewrite IH. unfold add_entry.
    now rewrite posting_fold_add_term, <- app_assoc.
Qed.

Lemma posting_stemToPrefixes s :
  posting stemToPrefixes s =
  flat_map (fun e =>
    flat_map (fun a =>
      if (2 <=? length s) && str_eqb s (getStem (trim (toLowerCase a)))
      then [fst e] else []) (snd e)) SYNONYMS.
Proof. unfold stemToPrefixes. now rewrite posting_fold_add_entry. Qed.

Lemma map_set_keys_eq {V : Type} (m : JSMap V) (k : str) (v : V) :
  map_keys (map_set k v m) =
  if existsb (str_eqb k) (map_keys m) then map_keys m else map_keys m ++ [k].
Proof.
  unfold map_keys. induction m as [|[k0 v0] m IH]; simpl; [reflexivity|].
  destruct (str_eqb k k0) eqn:E; simpl; [reflexivity|].
  rewrite IH. now destruct (existsb (str_eqb k) (map fst m)).
Qed.

Lemma map_set_keys_NoDup {V : Type} (m : JSMap V) (k : str) (v : V) :
  NoDup (map_keys m) -> NoDup (map_keys (map_set k v m)).
Proof.
  intros H. rewrite map_set_keys_eq.
  destruct (existsb (str_eqb k) (map_keys m)) eqn:E; [assumption|].
  apply NoDup_app; [assumption | repeat constructor; intros [] |].
  intros x Hx [<-|[]]. apply existsb_str_eqb in Hx. congruence.
Qed.

Lemma push_at_keys {A : Type} (m : JSMap (list A)) (key k : str) (x : A) :
  In k (map_keys (push_at m key x)) <-> In k (map_keys m) \/ k = key.
Proof. unfold push_at. destruct (map_get key m); apply map_set_keys. Qed.

Lemma push_at_keys_NoDup {A : Type} (m : JSMap (list A)) (key : str) (x : A) :
  NoDup (map_keys m) -> NoDup (map_keys (push_at m key x)).
Proof. unfold push_at. destruct (map_get key m); apply map_set_keys_NoDup. Qed.

(** What every key of the synonym index satisfies while it is built. *)
Lemma stemToPrefixes_keys_inv :
  NoDup (map_keys stemToPrefixes) /\
  (forall s, In s (map_keys stemToPrefixes) -> 2 <= length s) /\
  (forall s, map_get s stemToPrefixes <> Some []).
Proof.
  unfold stemToPrefixes.
  assert (H0 : NoDup (map_keys (@nil (str * list str))) /\
               (forall s, In s (map_keys (@nil (str * list str))) ->
                          2 <= length s) /\
               (forall s, map_get s (@nil (str * list str)) <> Some []))
    by (repeat split; [constructor | intros s [] | discriminate]).
  revert H0. generalize (@nil (str * list str)).
  induction SYNONYMS as [|e es IH]; intros m Hm; [exact Hm|].
  simpl. apply IH. unfold add_entry. revert m Hm.
  induction (snd e) as [|t ts IHt]; intros m Hm; [exact Hm|].
  simpl. apply IHt. unfold add_term.
  destruct (Nat.ltb_spec (length (getStem (trim (toLowerCase t)))) 2);
    [exact Hm|].
  destruct Hm as (Hnd & Hlen & Hne). repeat split.
  - now apply push_at_keys_NoDup.
  - intros s Hs. apply push_at_keys in Hs as [Hs| ->]; [now apply Hlen | lia].
  - now apply push_at_nonempty.
Qed.

Lemma posting_add_bucket ix stem key :
  2 <= length stem ->
  posting (add_bucket ix stem) key =
  posting ix key ++ (if str_eqb key (slice0 3 stem) then [stem] else []).
Proof.
  intros Hlen. unfold add_bucket.
  assert (H : 2 <= length (slice0 3 stem))
    by (unfold slice0; rewrite length_firstn; lia).
  destruct (Nat.ltb_spec (length (slice0 3 stem)) 2); [lia|].
  apply posting_push_at.
Qed.

Lemma posting_fold_add_bucket (stems : list str) ix key :
  (forall s, In s stems -> 2 <= length s) ->
  posting (fold_left add_bucket stems ix) key =
  posting ix key ++ filter (fun stem => str_eqb key (slice0 3 stem)) stems.
Proof.
  revert ix; induction stems as [|s stems IH]; intros ix Hlen;
    cbn [fold_left filter].
  - now rewrite app_nil_r.
  - rewrite IH by (intros s' Hs'; apply Hlen; now right).
    rewrite posting_add_bucket by (apply Hlen; now left).
    rewrite <- app_assoc. now destruct (str_eqb key (slice0 3 s)).
Qed.

(** *** The catalog index *)

Lemma positions_In {A : Type} (P : A -> bool) (l : list A) (k i : nat) :
  In i (positions P k l) <->
  k <= i /\ exists x, nth_error l (i - k) = Some x /\ P x = true.
Proof.
  revert k; induction l as [|y l IH]; intros k; simpl.
  - split; [contradiction|]. intros (_ & x & H & _).
    destruct (i - k); discriminate.
  - rewrite in_app_iff, IH. split.
    + intros [H|(Hle & x & Hn & HP)].
      * destruct (P y) eqn:E; [|contradiction]. destruct H as [<-|[]].
        split; [lia|]. exists y. now rewrite Nat.sub_diag.
      * split; [lia|]. exists x.
        replace (i - k) with (S (i - S k)) by lia. now split.
    + intros (Hle & x & Hn & HP). destruct (i - k) as [|d] eqn:E.
      * left. injection Hn as ->. rewrite HP. left. lia.
      * right. split; [lia|]. exists x.
        replace (i - S k) with d by lia. now split.
Qed.

Lemma positions_sorted {A : Type} (P : A -> bool) (l : list A) (k : nat) :
  StronglySorted lt (positions P k l).
Proof.
  revert k; induction l as [|y l IH]; intros k; simpl; [constructor|].
  destruct (P y); simpl; [|apply IH].
  constructor; [apply IH|]. apply Forall_forall. intros i Hi.
  apply positions_In in Hi. lia.
Qed.

Lemma StronglySorted_lt_NoDup (l : list nat) :
  StronglySorted lt l -> NoDup l.
Proof.
  induction 1 as [|x l Hs IH Hx]; constructor; [|assumption].
  intros Hin. rewrite Forall_forall in Hx. specialize (Hx x Hin). lia.
Qed.

Lemma positions_ext {A : Type} (P R : A -> bool) (l : list A) (k : nat) :
  (forall x, In x l -> P x = R x) -> positions P k l = positions R k l.
Proof.
  revert k; induction l as [|y l IH]; intros k H; simpl; [reflexivity|].
  rewrite (H y (or_introl eq_refl)), IH; [reflexivity|].
  intros x Hx. apply H. now right.
Qed.

Lemma positions_none {A : Type} (l : list A) (k : nat) :
  positions (fun _ => false) k l = [].
Proof. revert k; induction l as [|y l IH]; intros k; [reflexivity | apply IH]. Qed.

Lemma uniq_gen_spec (l seen : list str) :
  NoDup seen ->
  NoDup (fold_left (fun seen s =>
           if existsb (str_eqb s) seen then seen else seen ++ [s]) l seen) /\
  forall s, In s seen \/ In s l ->
    In s (fold_left (fun seen s =>
           if existsb (str_eqb s) seen then seen else seen ++ [s]) l seen).
Proof.
  revert seen; induction l as [|x l IH]; intros seen Hnd; simpl.
  - split; [assumption|]. intros s [H|[]]. exact H.
  - destruct (existsb (str_eqb x) seen) eqn:E.
    + destruct (IH seen Hnd) as [I1 I2]. split; [assumption|].
      intros s [H|[<-|H]]; apply I2; auto.
      left. now apply existsb_str_eqb.
    + assert (Hnd' : NoDup (seen ++ [x])).
      { apply NoDup_app; [assumption | repeat constructor; intros [] |].
        intros y Hy [<-|[]]. apply existsb_str_eqb in Hy. congruence. }
      destruct (IH (seen ++ [x]) Hnd') as [I1 I2]. split; [assumption|].
      intros s [H|[<-|H]]; apply I2; auto.
      * left. apply in_or_app. now left.
      * left. apply in_or_app. right. now left.
Qed.

Lemma uniq_NoDup (l : list str) : NoDup (uniq l).
Proof. apply uniq_gen_spec. constructor. Qed.

Lemma uniq_existsb (l : list str) (s : str) :
  existsb (str_eqb s) (uniq l) = existsb (str_eqb s) l.
Proof.
  apply eq_true_iff_eq. rewrite !existsb_str_eqb. split.
  - apply uniq_In.
  - intros H. apply uniq_gen_spec; [constructor | now right].
Qed.

Lemma posting_stem_pushes (idx : nat) (l : list str)
    (m : JSMap (list nat)) (s : str) :
  NoDup l ->
  posting (fold_left (fun m s' => if length s' <? 3 then m else push_at m s' idx)
                     l m) s =
  posting m s ++
  (if (3 <=? length s) && existsb (str_eqb s) l then [idx] else []).
Proof.
  revert m; induction l as [|s' l IH]; intros m Hnd; cbn [fold_left existsb].
  - now rewrite andb_false_r, app_nil_r.
  - inversion Hnd as [|? ? Hnot Hnd']; subst.
    rewrite IH by assumption. destruct (str_eqb s s') eqn:E.
    + apply str_eqb_eq in E. subst s'.
      assert (El : existsb (str_eqb s) l = false).
      { destruct (existsb (str_eqb s) l) eqn:El; [|reflexivity].
        apply existsb_str_eqb in El. contradiction. }
      rewrite El, andb_false_r, app_nil_r. cbn [orb]. rewrite andb_true_r.
      destruct (Nat.ltb_spec (length s) 3);
        destruct (Nat.leb_spec 3 (length s)); try lia.
      * now rewrite app_nil_r.
      * now rewrite posting_push_at, str_eqb_refl.
    + cbn [orb]. f_equal.
      destruct (length s' <? 3); [reflexivity|].
      now rewrite posting_push_at, E, app_nil_r.
Qed.

Lemma posting_fold_index_step (l : list IndexedTNVED) k ix key :
  posting (byPrefix2 (fold_left index_step (combine (seq k (length l)) l) ix))
          key =
  posting (byPrefix2 ix) key ++
  positions (fun it => str_eqb key (_code2 it)) k l
  /\
  posting (byPrefix4 (fold_left index_step (combine (seq k (length l)) l) ix))
          key =
  posting (byPrefix4 ix) key ++
  positions (fun it => str_eqb key (_code4 it)) k l
  /\
  posting (byStem (fold_left index_step (combine (seq k (length l)) l) ix))
          key =
  posting (byStem ix) key ++
  positions (fun it => (3 <=? length key)
                       && existsb (str_eqb key) (_titleStems it)) k l.
Proof.
  revert k ix; induction l as [|it l IH]; intros k ix;
    cbn [length seq combine fold_left positions].
  - now rewrite !app_nil_r.
  - destruct (IH (S k) (index_step ix (k, it))) as (I2 & I4 & Is).
    rewrite I2, I4, Is. cbn [index_step byPrefix2 byPrefix4 byStem].
    rewrite !posting_push_at, (posting_stem_pushes k _ _ _ (uniq_NoDup _)).
    rewrite uniq_existsb, <- !app_assoc. repeat split; reflexivity.
Qed.

Lemma fold_index_step_nonempty (l : list (nat * IndexedTNVED)) ix :
  (forall k, map_get k (byPrefix2 ix) <> Some []) /\
  (forall k, map_get k (byPrefix4 ix) <> Some []) /\
  (forall k, map_get k (byStem ix) <> Some []) ->
  (forall k, map_get k (byPrefix2 (fold_left index_step l ix)) <> Some []) /\
  (forall k, map_get k (byPrefix4 (fold_left index_step l ix)) <> Some []) /\
  (forall k, map_get k (byStem (fold_left index_step l ix)) <> Some []).
Proof.
  revert ix; induction l as [|[i it] l IH]; intros ix H; [exact H|].
  simpl. apply IH. destruct H as (H2 & H4 & Hs).
  cbn [index_step byPrefix2 byPrefix4 byStem].
  split; [now apply push_at_nonempty|]. split; [now apply push_at_nonempty|].
  generalize (uniq (_titleStems it)). intros ss. revert Hs.
  generalize (byStem ix). induction ss as [|s ss IHs]; intros m Hm;
    [exact Hm|].
  simpl. apply IHs. destruct (length s <? 3); [exact Hm|].
  now apply push_at_nonempty.
Qed.

Lemma searchIndex_nonempty :
  (forall k, map_get k (byPrefix2 searchIndex) <> Some []) /\
  (forall k, map_get k (byPrefix4 searchIndex) <> Some []) /\
  (forall k, map_get k (byStem searchIndex) <> Some []).
Proof. apply fold_index_step_nonempty. repeat split; discriminate. Qed.

Lemma posting_searchIndex key :
  posting (byPrefix2 searchIndex) key =
    positions (fun it => str_eqb key (_code2 it)) 0 items /\
  posting (byPrefix4 searchIndex) key =
    positions (fun it => str_eqb key (_code4 it)) 0 items /\
  posting (byStem searchIndex) key =
    positions (fun it => (3 <=? length key)
                         && existsb (str_eqb key) (_titleStems it)) 0 items.
Proof.
  unfold searchIndex, indexed.
  destruct (posting_fold_index_step items 0
              {| byPrefix2 := []; byPrefix4 := []; byStem := [] |} key)
    as (H2 & H4 & Hs).
  now rewrite H2, H4, Hs.
Qed.

(** X1. Looking a stem up in the synonym index yields exactly the code
    prefixes of the alias terms that stem to it, one per alias term and in
    the order of the synonym map; a stem is absent exactly when no alias
    yields it, and every indexed stem has at least 2 code units and is
    listed once. *)
Theorem stemToPrefixes_lookup (s : str) :
  posting stemToPrefixes s =
  flat_map (fun e =>
    flat_map (fun a =>
      if (2 <=? length s) && str_eqb s (getStem (trim (toLowerCase a)))
      then [fst e] else []) (snd e)) SYNONYMS /\
  (map_get s stemToPrefixes = None <-> posting stemToPrefixes s = []) /\
  NoDup (map_keys stemToPrefixes) /\
  (In s (map_keys stemToPrefixes) -> 2 <= length s).
Proof.
  destruct stemToPrefixes_keys_inv as (Hnd & Hlen & Hne).
  split; [apply posting_stemToPrefixes|]. split; [now apply posting_present|].
  split; [assumption | apply Hlen].
Qed.

(** X2. A bucket of the stem-prefix index holds exactly the stems of the
    synonym index whose first three code units are the bucket key, each
    once and in the order of the synonym index; since indexed stems have at
    least 2 code units, the guard on short keys never skips a stem. *)
Theorem stemPrefixIndex_lookup (key : str) :
  posting stemPrefixIndex key =
  filter (fun stem => str_eqb key (slice0 3 stem)) (map_keys stemToPrefixes) /\
  NoDup (posting stemPrefixIndex key) /\
  (forall stem, In stem (map_keys stemToPrefixes) ->
     In stem (posting stemPrefixIndex (slice0 3 stem))).
Proof.
  destruct stemToPrefixes_keys_inv as (Hnd & Hlen & _).
  assert (E : forall k, posting stemPrefixIndex k =
    filter (fun stem => str_eqb k (slice0 3 stem)) (map_keys stemToPrefixes)).
  { intros k. unfold stemPrefixIndex.
    now rewrite posting_fold_add_bucket by exact Hlen. }
  split; [apply E|]. split.
  - rewrite E. now apply NoDup_filter.
  - intros stem Hin. rewrite E. apply filter_In. split; [assumption|].
    apply str_eqb_refl.
Qed.

(** X3. The posting list of a 2-character (4-character) code prefix is
    exactly the list of positions of the catalog entries whose code starts
    with these 2 (4) characters, in increasing order and without
    repetition; the key is absent exactly when there is no such entry. *)
Theorem code_prefix_postings_lookup (key : str) :
  posting (byPrefix2 searchIndex) key =
    positions (fun it => str_eqb key (_code2 it)) 0 items /\
  posting (byPrefix4 searchIndex) key =
    positions (fun it => str_eqb key (_code4 it)) 0 items /\
  StronglySorted lt (posting (byPrefix2 searchIndex) key) /\
  StronglySorted lt (posting (byPrefix4 searchIndex) key) /\
  (map_get key (byPrefix2 searchIndex) = None <->
   posting (byPrefix2 searchIndex) key = []) /\
  (map_get key (byPrefix4 searchIndex) = None <->
   posting (byPrefix4 searchIndex) key = []).
Proof.
  destruct (posting_searchIndex key) as (H2 & H4 & _).
  destruct searchIndex_nonempty as (N2 & N4 & _).
  split; [exact H2|]. split; [exact H4|].
  split; [rewrite H2; apply positions_sorted|].
  split; [rewrite H4; apply positions_sorted|].
  split; now apply posting_present.
Qed.

(** X4. The posting list of a title stem is exactly the list of positions
    of the catalog entries that have it among their title stems, provided
    the stem has at least 3 code units (shorter stems have no posting); the
    list is increasing, so an entry whose title repeats a word is listed
    once. *)
Theorem title_stem_postings_lookup (key : str) :
  posting (byStem searchIndex) key =
    positions (fun it => (3 <=? length key)
                         && existsb (str_eqb key) (_titleStems it)) 0 items /\
  StronglySorted lt (posting (byStem searchIndex) key) /\
  (length key < 3 -> map_get key (byStem searchIndex) = None).
Proof.
  destruct (posting_searchIndex key) as (_ & _ & Hs).
  destruct searchIndex_nonempty as (_ & _ & Ns).
  split; [exact Hs|]. split; [rewrite Hs; apply positions_sorted|].
  intros Hlt. apply (posting_present _ key Ns). rewrite Hs.
  rewrite (positions_ext _ (fun _ => false)).
  - apply positions_none.
  - intros it _. destruct (Nat.leb_spec 3 (length key)); [lia | reflexivity].
Qed.

(* ================================================================== *)
(** ** More on the stemmer and the planner *)

Lemma SUFFIXES_short (x : str) : In x SUFFIXES -> length x <= 5.
Proof.
  assert (F : forallb (fun x => length x <=? 5) SUFFIXES = true)
    by reflexivity.
  intros H. apply (proj1 (forallb_forall _ _) F) in H.
  now apply Nat.leb_le in H.
Qed.

Lemma replace_suffix_prefix (s : str) :
  exists x, s = replace_suffix s ++ x /\ length x <= 5.
Proof.
  destruct (replace_suffix_spec s) as [[Heq _]|(x & Hx & Hs & _)].
  - exists []. rewrite Heq, app_nil_r. split; [reflexivity | simpl; lia].
  - exists x. split; [assumption | now apply SUFFIXES_short].
Qed.

(** X5. The stemmer removes at most 5 code units from the normalized
    token and never adds any, so a token of 7 or more code units always
    yields a stem of at least 2. *)
Theorem getStem_length_bounds (word : str) :
  length (getStem word) <= length (normalize word) /\
  length (normalize word) <= length (getStem word) + 5.
Proof.
  unfold getStem.
  destruct (replace_suffix_prefix (normalize word)) as (x & Hs & Hx).
  rewrite Hs at 2 3. rewrite length_app. lia.
Qed.

Lemma getStem_no_punct (word : str) (c : N) :
  In c (getStem word) -> is_punct c = false.
Proof.
  unfold getStem.
  destruct (replace_suffix_prefix (normalize word)) as (x & Hs & _).
  intros Hin.
  assert (Hn : In c (normalize word))
    by (rewrite Hs; apply in_or_app; now left).
  unfold normalize, remove_punct in Hn. apply filter_In in Hn as [_ Hn].
  now apply negb_true_iff in Hn.
Qed.

(** X6. Whenever the search goes on to scoring there is at least one
    query stem, so the divisor of the match density is positive; every query
    stem, and every title stem of every indexed entry, has at least 2 code
    units and none of the punctuation characters [. , ! ? ; :]. *)
Theorem stems_are_usable :
  (forall query stems, planQuery query = Some stems ->
     1 <= length stems /\
     forall s, In s stems ->
       2 <= length s /\ forall c, In c s -> is_punct c = false) /\
  (forall it ts, In it items -> In ts (_titleStems it) ->
     2 <= length ts /\ forall c, In c ts -> is_punct c = false).
Proof.
  split.
  - intros query stems Hp.
    assert (Hs := planQuery_stems _ _ Hp). unfold planQuery in Hp.
    destruct (length (trimmed query) <? 2); [discriminate|].
    destruct (length (queryWords query) =? 0); [discriminate|].
    destruct (Nat.eqb_spec (length (queryStems query)) 0); [discriminate|].
    subst stems. split; [lia|]. intros s Hin.
    unfold queryStems in Hin. apply filter_In in Hin as [Hin Hlen].
    apply Nat.leb_le in Hlen. split; [assumption|].
    apply in_map_iff in Hin as (w & <- & _). apply getStem_no_punct.
  - intros it ts Hit Hts. unfold items in Hit.
    apply in_map_iff in Hit as (e & <- & _). cbn [index_item _titleStems] in Hts.
    apply filter_In in Hts as [Hin Hlen]. apply Nat.leb_le in Hlen.
    split; [assumption|].
    apply in_map_iff in Hin as (w & <- & _). apply getStem_no_punct.
Qed.

Lemma trimStart_app_space (pre s : str) :
  (forall c, In c pre -> is_space c = true) ->
  trimStart (pre ++ s) = trimStart s.
Proof.
  induction pre as [|c pre IH]; intros H; [reflexivity|].
  cbn [app trimStart]. rewrite (H c (or_introl eq_refl)).
  apply IH. intros d Hd. apply H. now right.
Qed.

Lemma trimEnd_app_space (s post : str) :
  (forall c, In c post -> is_space c = true) ->
  trimEnd (s ++ post) = trimEnd s.
Proof.
  intros H. unfold trimEnd. rewrite rev_app_distr, trimStart_app_space;
    [reflexivity|].
  intros c Hc. apply H. now apply in_rev.
Qed.

Lemma trimStart_app_keep (s post : str) :
  trimStart s <> [] -> trimStart (s ++ post) = trimStart s ++ post.
Proof.
  induction s as [|c s IH]; intros H; [now destruct H|].
  cbn [app trimStart] in *. destruct (is_space c); [now apply IH | reflexivity].
Qed.

Lemma trim_padding (pre q post : str) :
  (forall c, In c pre -> is_space c = true) ->
  (forall c, In c post -> is_space c = true) ->
  trim (pre ++ q ++ post) = trim q.
Proof.
  intros Hpre Hpost. unfold trim. rewrite trimStart_app_space by assumption.
  destruct (trimStart q) as [|c r] eqn:E.
  - assert (Hq : trimStart (q ++ post) = []).
    { clear Hpre. induction q as [|d q IH]; cbn [app trimStart] in *.
      - now apply trimStart_all_space.
      - destruct (is_space d); [now apply IH | discriminate]. }
    now rewrite Hq.
  - rewrite trimStart_app_keep by (rewrite E; discriminate).
    rewrite E. now apply trimEnd_app_space.
Qed.

(** X7. White space before and after the query does not matter: padding
    a query with white space on either side leaves the outcome of the search
    unchanged. *)
Theorem search_ignores_outer_white_space (pre query post : str) :
  (forall c, In c pre -> is_space c = true) ->
  (forall c, In c post -> is_space c = true) ->
  handleSearchLocal (pre ++ query ++ post) = handleSearchLocal query.
Proof.
  intros Hpre Hpost.
  unfold handleSearchLocal, planQuery, queryStems, queryWords, trimmed.
  now rewrite (trim_padding pre query post Hpre Hpost).
Qed.

(* ================================================================== *)
(** ** More on the ranking *)

Lemma prefix_fold_confirmed_inv it (pa : list (str * Q)) a :
  subjectConfirmed (fold_left (prefix_step it) pa a) = true ->
  subjectConfirmed a = true \/
  exists pw, In pw pa /\ prefix_matches it (fst pw) = true.
Proof.
  revert a; induction pa as [|pw pa IH]; intros a H; simpl in H; [now left|].
  apply IH in H as [H|(pw' & Hin & Hm)].
  - unfold prefix_step in H. destruct (prefix_matches it (fst pw)) eqn:E.
    + right. exists pw. split; [now left | assumption].
    + now left.
  - right. exists pw'. split; [now right | assumption].
Qed.

Lemma text_fold_confirmed_inv it (l : list (nat * str)) a :
  subjectConfirmed (fold_left (text_step it) l a) = true ->
  subjectConfirmed a = true \/
  exists s, In s (map snd l) /\ title_match it s = true.
Proof.
  revert a; induction l as [|[i s] l IH]; intros a H; simpl in H; [now left|].
  apply IH in H as [H|(s' & Hin & Hm)].
  - unfold text_step in H. destruct (title_match it s) eqn:E.
    + right. exists s. split; [now left | assumption].
    + left. now destruct (desc_match it s).
  - right. exists s'. split; [now right | assumption].
Qed.

Lemma score_item_confirmed_inv stems pa it :
  subjectConfirmed (score_item stems pa it) = true ->
  (exists pw, In pw pa /\ prefix_matches it (fst pw) = true) \/
  (exists s, In s stems /\ title_match it s = true).
Proof.
  unfold score_item. intros H.
  apply text_fold_confirmed_inv in H as [H|H].
  - left. destruct (0 <? length pa); [|discriminate].
    now apply prefix_fold_confirmed_inv in H as [H|H]; [discriminate|].
  - right. now rewrite indexed_snd in H.
Qed.

Lemma relevant_confirmed stems a :
  relevant stems a = true -> subjectConfirmed a = true.
Proof. unfold relevant. intros H. now apply andb_true_iff in H. Qed.

(** X8. No entry is returned on the strength of its description alone:
    every returned entry either carries a weighted code prefix or has a
    title stem that contains, or is contained in, a query stem. *)
Theorem returned_entries_have_confirmed_subject (query : str) :
  exists l, handleSearchLocal query = Ok l /\
    forall it, In it l ->
      (exists p, In p (map_keys (codePrefixWeights (queryStems query))) /\
                 prefix_matches it p = true) \/
      (exists s, In s (queryStems query) /\ title_match it s = true).
Proof.
  destruct (search_returns query) as [l Hl].
  exists l. split; [assumption|]. intros it Hin.
  apply (returned_In _ _ _ Hl) in Hin.
  apply ranked_In in Hin as (idx & _ & _ & Hrel).
  apply relevant_confirmed, score_item_confirmed_inv in Hrel
    as [((p & x) & Hin & Hm)|H]; [left | now right].
  exists p. split; [|assumption]. change p with (fst (p, x)).
  now apply in_map.
Qed.

(** The order of the sort. *)
Lemma insert_desc_In x l r : In r (insert_desc x l) <-> r = x \/ In r l.
Proof.
  split.
  - intros H. apply (Permutation_in _ (insert_desc_perm x l)) in H.
    destruct H; auto.
  - intros H. apply (Permutation_in _ (Permutation_sym (insert_desc_perm x l))).
    destruct H; [left | right]; auto.
Qed.

Lemma insert_desc_sorted x l :
  StronglySorted (fun a b => (score b <= score a)%Q) l ->
  StronglySorted (fun a b => (score b <= score a)%Q) (insert_desc x l).
Proof.
  induction 1 as [|y l Hs IH Hy]; simpl; [repeat constructor|].
  destruct (Qle_bool (score y) (score x)) eqn:E; simpl.
  - apply Qle_bool_iff in E. constructor; [now constructor|].
    constructor; [assumption|].
    rewrite Forall_forall in *. intros r Hr. specialize (Hy r Hr).
    eapply Qle_trans; eassumption.
  - assert (Hlt : (score x < score y)%Q).
    { apply Qnot_le_lt. intros Hle. apply Qle_bool_iff in Hle. congruence. }
    constructor; [assumption|].
    rewrite Forall_forall in *. intros r Hr.
    apply insert_desc_In in Hr as [->|Hr]; [now apply Qlt_le_weak | auto].
Qed.

Lemma sort_desc_sorted l :
  StronglySorted (fun a b => (score b <= score a)%Q) (sort_desc l).
Proof.
  induction l as [|x l IH]; simpl; [constructor | now apply insert_desc_sorted].
Qed.

Lemma StronglySorted_firstn {A : Type} (R : A -> A -> Prop) (n : nat)
    (l : list A) :
  StronglySorted R l -> StronglySorted R (firstn n l).
Proof.
  intros H. revert n. induction H as [|x l Hs IH Hx]; intros [|n]; simpl;
    try constructor; [apply IH|].
  rewrite Forall_forall in *. intros y Hy. apply Hx.
  now apply In_firstn in Hy.
Qed.

Lemma StronglySorted_map_item stems (rs : list Scored) :
  (forall r, In r rs -> score r = final_score stems (item r)) ->
  StronglySorted (fun a b => (score b <= score a)%Q) rs ->
  StronglySorted
    (fun a b => (final_score stems b <= final_score stems a)%Q)
    (map item rs).
Proof.
  intros Hsc H. induction H as [|r rs Hs IH Hr]; simpl; constructor.
  - apply IH. intros r' Hr'. apply Hsc. now right.
  - rewrite Forall_forall in *. intros it Hit.
    apply in_map_iff in Hit as (r' & <- & Hr').
    rewrite <- (Hsc r (or_introl eq_refl)), <- (Hsc r' (or_intror Hr')).
    now apply Hr.
Qed.

Lemma kept_score stems r :
  In r (kept stems) -> score r = final_score stems (item r).
Proof.
  intros H. apply kept_In in H as (_ & _ & _ & _ & Heq).
  now rewrite Heq at 1.
Qed.

Lemma ranked_sorted stems :
  StronglySorted
    (fun a b => (final_score stems b <= final_score stems a)%Q)
    (ranked stems).
Proof.
  unfold ranked. apply StronglySorted_firstn, StronglySorted_map_item.
  - intros r Hr. apply kept_score.
    now apply (Permutation_in _ (sort_desc_perm _)).
  - apply sort_desc_sorted.
Qed.

(** X9. The returned list is ordered by score: each entry's score is at
    least the score of every entry after it. *)
Theorem results_ordered_by_score (query : str) :
  exists l, handleSearchLocal query = Ok l /\
    StronglySorted
      (fun a b => (final_score (queryStems query) b
                   <= final_score (queryStems query) a)%Q) l.
Proof.
  eexists. split; [apply handleSearchLocal_eq|].
  destruct (planQuery query) as [stems|] eqn:E; [|constructor].
  apply planQuery_stems in E. subst stems. apply ranked_sorted.
Qed.

Lemma set_add_NoDup (s : NumSet) (i : nat) : NoDup s -> NoDup (set_add s i).
Proof.
  intros H. unfold set_add, set_has.
  destruct (existsb (Nat.eqb i) s) eqn:E; [assumption|].
  apply NoDup_app; [assumption | repeat constructor; intros [] |].
  intros x Hx [Heq|[]]. subst x.
  assert (Ht : existsb (Nat.eqb i) s = true)
    by (apply existsb_exists; exists i; split; [assumption | apply Nat.eqb_refl]).
  congruence.
Qed.

Lemma add_all_NoDup (arr : list nat) (s : NumSet) :
  NoDup s -> NoDup (add_all s arr).
Proof.
  unfold add_all. revert s. induction arr as [|i arr IH]; intros s H; simpl;
    [assumption | now apply IH, set_add_NoDup].
Qed.

Lemma from_postings_NoDup m key c : NoDup c -> NoDup (from_postings m key c).
Proof.
  intros H. unfold from_postings.
  destruct (map_get key m); [now apply add_all_NoDup | assumption].
Qed.

Lemma addCandidatesFromPrefix_NoDup c prefix :
  NoDup c -> NoDup (addCandidatesFromPrefix c prefix).
Proof.
  intros H. unfold addCandidatesFromPrefix.
  repeat match goal with
         | |- context [if ?b then _ else _] => destruct b
         end; try assumption; now apply from_postings_NoDup.
Qed.

(** The candidates form a set: no position is scored twice. *)
Lemma candidates_NoDup stems : NoDup (candidates stems).
Proof.
  unfold candidates.
  destruct (0 <? length (codePrefixWeights stems)).
  - unfold prefix_candidates.
    generalize (NoDup_nil nat). generalize (@nil nat).
    induction (map_keys (codePrefixWeights stems)) as [|p ps IH];
      intros c Hc; simpl; [assumption|].
    now apply IH, addCandidatesFromPrefix_NoDup.
  - destruct (length (stem_candidates stems) =? 0).
    + rewrite scan_candidates_eq. apply seq_NoDup.
    + unfold stem_candidates.
      generalize (NoDup_nil nat). generalize (@nil nat).
      induction stems as [|s ss IH]; intros c Hc; simpl; [assumption|].
      now apply IH, from_postings_NoDup.
Qed.

Lemma kept_positions stems pa (cands : list nat) :
  NoDup cands ->
  exists idxs, NoDup idxs /\ incl idxs cands /\
    Forall2 (fun i r => nth_error items i = Some (item r)) idxs
            (flat_map (kept_of stems pa) cands).
Proof.
  induction cands as [|i cands IH]; intros Hnd; simpl.
  - exists []. repeat split; [constructor | intros x [] | constructor].
  - inversion Hnd as [|? ? Hi Hnd']; subst.
    destruct (IH Hnd') as (idxs & Hn & Hincl & HF).
    unfold kept_of at 1. destruct (nth_error items i) as [it|] eqn:E.
    + destruct (relevant stems (score_item stems pa it)).
      * exists (i :: idxs). repeat split.
        -- constructor; [|assumption]. intros H. apply Hi. now apply Hincl.
        -- intros x [<-|Hx]; [now left | right; now apply Hincl].
        -- simpl. constructor; [exact E | assumption].
      * exists idxs. repeat split; try assumption.
        intros x Hx. right. now apply Hincl.
    + exists idxs. repeat split; try assumption.
      intros x Hx. right. now apply Hincl.
Qed.

Lemma Forall2_Permutation_r {A B : Type} (R : A -> B -> Prop)
    (ys ys' : list B) :
  Permutation ys ys' ->
  forall xs, Forall2 R xs ys ->
    exists xs', Permutation xs xs' /\ Forall2 R xs' ys'.
Proof.
  induction 1 as [|y ys ys' Hp IH|y z ys|ys ys1 ys2 H1 IH1 H2 IH2];
    intros xs HF.
  - inversion HF; subst. exists []. split; constructor.
  - inversion HF as [|x ? xs0 ? Hx HF']; subst.
    destruct (IH xs0 HF') as (xs' & Hp' & HF'').
    exists (x :: xs'). split; [now constructor | now constructor].
  - inversion HF as [|x ? xs0 ? Hx HF']; subst.
    inversion HF' as [|x2 ? xs1 ? Hx2 HF'']; subst.
    exists (x2 :: x :: xs1). split; [apply perm_swap | repeat constructor];
      assumption.
  - destruct (IH1 xs HF) as (xs1 & Hp1 & HF1).
    destruct (IH2 xs1 HF1) as (xs2 & Hp2 & HF2).
    exists xs2. split; [eapply perm_trans; eassumption | assumption].
Qed.

Lemma Forall2_In_left {A B : Type} (R : A -> B -> Prop)
    (xs : list A) (ys : list B) (x : A) :
  Forall2 R xs ys -> In x xs -> exists y, In y ys /\ R x y.
Proof.
  induction 1 as [|x0 y0 xs ys Hxy HF IH]; intros Hin; [contradiction|].
  destruct Hin as [->|Hin].
  - exists y0. split; [now left | assumption].
  - destruct (IH Hin) as (y & Hy & HR). exists y. split; [now right | assumption].
Qed.

Lemma Forall2_firstn {A B : Type} (R : A -> B -> Prop) (n : nat)
    (xs : list A) (ys : list B) :
  Forall2 R xs ys -> Forall2 R (firstn n xs) (firstn n ys).
Proof.
  intros H. revert n. induction H; intros [|n]; simpl; constructor; auto.
Qed.

Lemma NoDup_firstn {A : Type} (n : nat) (l : list A) :
  NoDup l -> NoDup (firstn n l).
Proof.
  intros H. rewrite <- (firstn_skipn n l) in H.
  now apply NoDup_app_remove_r in H.
Qed.

Lemma ranked_positions stems :
  exists idxs, NoDup idxs /\
    (forall i, In i idxs -> In i (candidates stems)) /\
    Forall2 (fun i it => nth_error items i = Some it) idxs (ranked stems).
Proof.
  destruct (kept_positions stems (codePrefixWeights stems) (candidates stems)
              (candidates_NoDup stems)) as (idxs & Hnd & Hincl & HF).
  fold (kept stems) in HF.
  destruct (Forall2_Permutation_r _ _ _
              (Permutation_sym (sort_desc_perm (kept stems))) idxs HF)
    as (idxs' & Hp & HF').
  exists (firstn 30 idxs'). split; [|split].
  - apply NoDup_firstn. eapply Permutation_NoDup; eassumption.
  - intros i Hi. apply In_firstn in Hi. apply Hincl.
    eapply Permutation_in; [apply Permutation_sym|]; eassumption.
  - unfold ranked. apply Forall2_firstn.
    clear - HF'. induction HF'; simpl; constructor; assumption.
Qed.

(** X10. The returned entries sit at pairwise distinct positions of the
    catalog, so no catalog entry is returned twice and the result is never
    longer than the catalog; with an empty catalog every search returns the
    empty list. *)
Theorem results_are_distinct_catalog_positions (query : str) :
  exists l idxs, handleSearchLocal query = Ok l /\
    NoDup idxs /\
    Forall2 (fun i it => nth_error items i = Some it) idxs l /\
    length l <= length TNVED_DB.
Proof.
  assert (H : forall l idxs, NoDup idxs ->
            Forall2 (fun i it => nth_error items i = Some it) idxs l ->
            length l <= length TNVED_DB).
  { intros l idxs Hnd HF. rewrite <- (Forall2_length HF).
    replace (length TNVED_DB) with (length (seq 0 (length items)))
      by (unfold items; now rewrite length_seq, length_map).
    apply NoDup_incl_length; [assumption|].
    intros i Hi. apply in_seq.
    destruct (Forall2_In_left _ _ _ _ HF Hi) as (it & _ & Hn).
    assert (i < length items) by (apply nth_error_Some; congruence). lia. }
  destruct (planQuery query) as [stems|] eqn:E.
  - destruct (ranked_positions stems) as (idxs & Hnd & _ & HF).
    exists (ranked stems), idxs. rewrite handleSearchLocal_eq, E.
    repeat split; try assumption. now apply (H _ idxs).
  - exists [], []. rewrite handleSearchLocal_eq, E.
    repeat split; [constructor | constructor | simpl; lia].
Qed.

Lemma flat_map_positions {B : Type} (P : IndexedTNVED -> bool)
    (f : nat -> list B) (g : IndexedTNVED -> B) (l : list IndexedTNVED)
    (k : nat) :
  (forall j it, nth_error l j = Some it -> P it = true -> f (k + j) = [g it]) ->
  flat_map f (positions P k l) = map g (filter P l).
Proof.
  revert k; induction l as [|y l IH]; intros k H; [reflexivity|].
  cbn [positions filter]. rewrite flat_map_app.
  rewrite (IH (S k)).
  - destruct (P y) eqn:E; [|reflexivity].
    cbn [flat_map map app]. rewrite app_nil_r.
    specialize (H 0 y eq_refl E). rewrite Nat.add_0_r in H. now rewrite H.
  - intros j it Hn HP. specialize (H (S j) it Hn HP).
    now rewrite Nat.add_succ_r in H.
Qed.

Lemma sort_desc_same_score (l : list Scored) (c : Q) :
  (forall r, In r l -> score r = c) -> sort_desc l = l.
Proof.
  induction l as [|x l IH]; intros H; [reflexivity|].
  cbn [sort_desc fold_right]. fold (sort_desc l).
  rewrite IH by (intros r Hr; apply H; now right).
  destruct l as [|y l']; [reflexivity|]. cbn [insert_desc].
  rewrite (H x (or_introl eq_refl)), (H y (or_intror (or_introl eq_refl))).
  replace (Qle_bool c c) with true; [reflexivity|].
  symmetry. apply Qle_bool_iff, Qle_refl.
Qed.

Lemma score_item_title_only s it :
  title_match it s = true ->
  score_item [s] [] it =
  {| acc_score := 0 + 4000; subjectConfirmed := true;
     matchedStemsCount := 1 |}.
Proof.
  intros H. unfold score_item, indexed.
  cbn [length Nat.ltb Nat.leb seq combine fold_left text_step].
  now rewrite H.
Qed.

(** X11. A query with a single stem that no alias matches, but that is a
    title stem listed in the title-stem postings, returns exactly the
    entries that have this very stem among their title stems, in catalog
    order and cut at 30; entries whose title stems merely contain the stem
    are then not returned. *)
Theorem title_stem_fallback_result (query s : str) :
  planQuery query = Some [s] ->
  codePrefixWeights [s] = [] ->
  posting (byStem searchIndex) s <> [] ->
  handleSearchLocal query =
  Ok (firstn 30
        (filter (fun it => existsb (str_eqb s) (_titleStems it)) items)).
Proof.
  intros Hp Hw Hpost.
  set (P := fun it : IndexedTNVED => existsb (str_eqb s) (_titleStems it)).
  destruct (posting_searchIndex s) as (_ & _ & Hs).
  assert (H3 : (3 <=? length s) = true).
  { destruct (3 <=? length s) eqn:E; [reflexivity|]. exfalso. apply Hpost.
    rewrite Hs. rewrite (positions_ext _ (fun _ => false));
      [apply positions_none | reflexivity]. }
  assert (Hpos : posting (byStem searchIndex) s = positions P 0 items).
  { rewrite Hs. apply positions_ext. intros it _. now rewrite H3. }
  assert (Hc : candidates [s] = positions P 0 items).
  { unfold candidates. rewrite Hw. cbn [length Nat.ltb Nat.leb].
    unfold stem_candidates. cbn [fold_left]. unfold from_postings.
    unfold posting in Hpos, Hpost.
    destruct (map_get s (byStem searchIndex)) as [arr|];
      [|now destruct Hpost].
    subst arr. rewrite add_all_fresh;
      [ | apply StronglySorted_lt_NoDup, positions_sorted | intros x _ []].
    cbn [app]. destruct (positions P 0 items); [now destruct Hpost|].
    reflexivity. }
  rewrite handleSearchLocal_eq, Hp. unfold ranked, kept.
  rewrite Hw, Hc.
  rewrite (flat_map_positions P (kept_of [s] [])
             (fun it => {| item := it; score := 0 + 4000;
                           isRelevant := true |})).
  - rewrite (sort_desc_same_score _ (0 + 4000)%Q).
    + now rewrite map_map, map_id.
    + intros r Hr. apply in_map_iff in Hr as (it & <- & _). reflexivity.
  - intros j it Hn HP. cbn [Nat.add]. unfold kept_of. rewrite Hn.
    assert (Ht : title_match it s = true)
      by (apply title_match_own_stem; now apply existsb_str_eqb).
    rewrite (score_item_title_only s it Ht). reflexivity.
Qed.

Lemma stemToPrefixes_value_sound s arr p :
  map_get s stemToPrefixes = Some arr -> In p arr ->
  In p (map fst SYNONYMS).
Proof.
  intros Hg Hin.
  assert (Hp : In p (posting stemToPrefixes s))
    by (unfold posting; now rewrite Hg).
  rewrite posting_stemToPrefixes in Hp.
  apply in_flat_map in Hp as (e & He & Hp).
  apply in_flat_map in Hp as (a & _ & Hp).
  destruct (_ && _); [|contradiction]. destruct Hp as [<-|[]].
  now apply in_map.
Qed.

Lemma stem_hits_from_synonyms qStem h :
  In h (stem_hits qStem) -> In (fst h) (map fst SYNONYMS).
Proof.
  unfold stem_hits.
  assert (Hb : forall b,
    In h (flat_map (fun mapStem =>
      if includes qStem mapStem || includes mapStem qStem
      then match map_get mapStem stemToPrefixes with
           | None => []
           | Some prefixes =>
             map (fun prefix =>
               (prefix, if str_eqb mapStem qStem then 1.2%Q else 0.8%Q))
               prefixes
           end
      else []) b) -> In (fst h) (map fst SYNONYMS)).
  { intros b Hin. apply in_flat_map in Hin as (ms & _ & Hin).
    destruct (includes qStem ms || includes ms qStem); [|contradiction].
    destruct (map_get ms stemToPrefixes) as [prefixes|] eqn:E;
      [|contradiction].
    apply in_map_iff in Hin as (pf & <- & Hpf).
    now apply (stemToPrefixes_value_sound ms prefixes). }
  destruct (map_get qStem stemToPrefixes) as [[|p ps]|] eqn:E; try apply Hb.
  intros Hin. apply in_map_iff in Hin as (pf & <- & Hpf).
  now apply (stemToPrefixes_value_sound qStem (p :: ps)).
Qed.

Lemma fold_hits_NoDup qIdx (hits : list (str * Q)) w :
  NoDup (map_keys w) ->
  NoDup (map_keys (fold_left (fun w h =>
    addPrefixWeight w (fst h) (2000 * importance qIdx * snd h)%Q) hits w)).
Proof.
  revert w; induction hits as [|h hits IH]; intros w Hw; simpl; [assumption|].
  apply IH. unfold addPrefixWeight. now apply map_set_keys_NoDup.
Qed.

Lemma codePrefixWeights_NoDup stems :
  NoDup (map_keys (codePrefixWeights stems)).
Proof.
  unfold codePrefixWeights.
  generalize (NoDup_nil str : NoDup (map_keys (@nil (str * Q)))).
  generalize (@nil (str * Q)).
  induction (indexed stems) as [|[i s] l IH]; intros w Hw; simpl;
    [assumption|].
  apply IH. unfold expand_step. now apply fold_hits_NoDup.
Qed.

(** X12. The weighted prefixes are pairwise distinct keys of the synonym
    map, and each carries a weight of at least 1600, twice the single-term
    floor. *)
Theorem weighted_prefixes_come_from_synonyms (stems : list str) :
  NoDup (map_keys (codePrefixWeights stems)) /\
  Forall (fun pw => In (fst pw) (map fst SYNONYMS) /\ (1600 <= snd pw)%Q)
         (codePrefixWeights stems).
Proof.
  split; [apply codePrefixWeights_NoDup|].
  apply Forall_forall. intros [k x] Hin. split.
  - assert (Hk : In k (map_keys (codePrefixWeights stems)))
      by (change k with (fst (k, x)); now apply in_map).
    apply codePrefixWeights_keys in Hk as (s & _ & Hk).
    apply in_map_iff in Hk as (h & <- & Hh).
    now apply stem_hits_from_synonyms in Hh.
  - exact (codePrefixWeights_ok stems k x Hin).
Qed.

(* ================================================================== *)
(** ** Exact and approximate alias hits *)

Lemma map_get_None_keys {V : Type} (m : JSMap V) (k : str) :
  map_get k m = None <-> ~ In k (map_keys m).
Proof.
  split.
  - intros H Hin. apply map_key_get in Hin as (v & Hv). congruence.
  - intros H. destruct (map_get k m) as [v|] eqn:E; [|reflexivity].
    exfalso. apply H. now apply map_get_key in E.
Qed.

Lemma bucket_members key stem :
  In stem (posting stemPrefixIndex key) ->
  In stem (map_keys stemToPrefixes) /\ key = slice0 3 stem.
Proof.
  destruct stemToPrefixes_keys_inv as (_ & Hlen & _).
  unfold stemPrefixIndex. rewrite posting_fold_add_bucket by exact Hlen.
  cbn [posting map_get app]. intros H. apply filter_In in H as [Hin Heq].
  split; [assumption | now apply str_eqb_eq].
Qed.

(** X14. A query stem that is itself a stem of the synonym index reaches
    exactly the prefixes registered under it, each with match quality 1.2,
    and the approximate lookup is not made.  A query stem that is not
    indexed reaches only prefixes of indexed stems that share its first
    three code units and contain it or are contained in it, each with match
    quality 0.8: the approximate lookup never yields quality 1.2. *)
Theorem stem_hits_exact_or_approximate (qStem : str) :
  (In qStem (map_keys stemToPrefixes) ->
   stem_hits qStem =
   map (fun prefix => (prefix, 1.2%Q)) (posting stemToPrefixes qStem)) /\
  (~ In qStem (map_keys stemToPrefixes) ->
   forall h, In h (stem_hits qStem) ->
     snd h = 0.8%Q /\
     exists mapStem,
       In mapStem (map_keys stemToPrefixes) /\
       slice0 3 mapStem = slice0 3 qStem /\
       (includes qStem mapStem || includes mapStem qStem) = true /\
       In (fst h) (posting stemToPrefixes mapStem)).
Proof.
  destruct stemToPrefixes_keys_inv as (_ & _ & Hne).
  split.
  - intros Hin. apply map_key_get in Hin as (arr & Hg).
    unfold stem_hits, posting. rewrite Hg.
    destruct arr as [|p ps]; [now destruct (Hne qStem) | reflexivity].
  - intros Hnot h Hh. assert (Hg := proj2 (map_get_None_keys _ _) Hnot).
    unfold stem_hits in Hh. rewrite Hg in Hh.
    change (match map_get (slice0 3 qStem) stemPrefixIndex with
            | Some b => b | None => [] end)
      with (posting stemPrefixIndex (slice0 3 qStem)) in Hh.
    apply in_flat_map in Hh as (ms & Hms & Hh).
    apply bucket_members in Hms as [Hkey Hslice].
    destruct (includes qStem ms || includes ms qStem) eqn:Einc;
      [|contradiction].
    destruct (map_get ms stemToPrefixes) as [prefixes|] eqn:Eg;
      [|contradiction].
    apply in_map_iff in Hh as (pf & <- & Hpf). cbn [fst snd].
    destruct (str_eqb ms qStem) eqn:Eeq.
    { apply str_eqb_eq in Eeq. subst ms. contradiction. }
    split; [reflexivity|]. exists ms. repeat split; auto.
    unfold posting. now rewrite Eg.
Qed.

(* ================================================================== *)
(** ** The two fallbacks *)

Lemma returned_positions query stems :
  planQuery query = Some stems ->
  exists l idxs, handleSearchLocal query = Ok l /\
    Forall2 (fun i it => nth_error items i = Some it) idxs l /\
    forall i, In i idxs -> In i (candidates stems).
Proof.
  intros Hp. destruct (ranked_positions stems) as (idxs & _ & Hincl & HF).
  exists (ranked stems), idxs. rewrite handleSearchLocal_eq, Hp. auto.
Qed.

Lemma Forall2_In_right {A B : Type} (R : A -> B -> Prop)
    (xs : list A) (ys : list B) (y : B) :
  Forall2 R xs ys -> In y ys -> exists x, In x xs /\ R x y.
Proof.
  induction 1 as [|x0 y0 xs ys Hxy HF IH]; intros Hin; [contradiction|].
  destruct Hin as [->|Hin].
  - exists x0. split; [now left | assumption].
  - destruct (IH Hin) as (x & Hx & HR). exists x. split; [now right | assumption].
Qed.

(** X15. When no code prefix is weighted and the title-stem postings list
    some query stem, every returned entry has a title stem that is equal to
    a query stem of at least 3 code units: in this branch an entry whose
    title stems only contain, or are contained in, the query stems is not
    returned. *)
Theorem title_stem_branch_needs_equal_stem (query : str) (stems : list str) :
  planQuery query = Some stems ->
  codePrefixWeights stems = [] ->
  stem_candidates stems <> [] ->
  exists l, handleSearchLocal query = Ok l /\
    forall it, In it l ->
      exists s, In s stems /\ In s (_titleStems it) /\ 3 <= length s.
Proof.
  intros Hp Hw Hc.
  destruct (returned_positions query stems Hp) as (l & idxs & Hl & HF & Hincl).
  exists l. split; [assumption|]. intros it Hit.
  destruct (Forall2_In_right _ _ _ _ HF Hit) as (i & Hi & Hn).
  apply Hincl in Hi. unfold candidates in Hi. rewrite Hw in Hi.
  cbn [length Nat.ltb Nat.leb] in Hi.
  destruct (stem_candidates stems) as [|c cs] eqn:E; [now destruct Hc|].
  cbn [length Nat.eqb] in Hi. rewrite <- E in Hi.
  apply stem_candidates_In in Hi as (s & Hs & Hh).
  exists s. split; [assumption|].
  apply posting_holds in Hh.
  destruct (posting_searchIndex s) as (_ & _ & Hpost). rewrite Hpost in Hh.
  apply positions_In in Hh as (_ & it' & Hn' & HP).
  rewrite Nat.sub_0_r in Hn'. assert (it' = it) by congruence. subst it'.
  apply andb_true_iff in HP as [H3 Hex].
  split; [now apply existsb_str_eqb | now apply Nat.leb_le].
Qed.

(** X16. When no code prefix is weighted and the title-stem postings list
    no query stem, only the first 3000 catalog positions are scored: every
    returned entry sits at a catalog position below 3000. *)
Theorem scan_fallback_is_bounded (query : str) (stems : list str) :
  planQuery query = Some stems ->
  codePrefixWeights stems = [] ->
  stem_candidates stems = [] ->
  candidates stems = seq 0 (Nat.min (length TNVED_DB) 3000) /\
  exists l idxs, handleSearchLocal query = Ok l /\
    Forall2 (fun i it => nth_error items i = Some it) idxs l /\
    Forall (fun i => i < 3000) idxs.
Proof.
  intros Hp Hw Hc.
  assert (E : candidates stems = seq 0 (Nat.min (length TNVED_DB) 3000)).
  { unfold candidates. rewrite Hw, Hc. cbn [length Nat.ltb Nat.leb Nat.eqb].
    rewrite scan_candidates_eq. unfold items. now rewrite length_map. }
  split; [exact E|].
  destruct (returned_positions query stems Hp) as (l & idxs & Hl & HF & Hincl).
  exists l, idxs. repeat split; try assumption.
  apply Forall_forall. intros i Hi. apply Hincl in Hi. rewrite E in Hi.
  apply in_seq in Hi. lia.
Qed.

(* ================================================================== *)
(** ** Searching for an alias *)

Lemma trimStart_no_space (s : str) :
  (forall c, In c s -> is_space c = false) -> trimStart s = s.
Proof.
  destruct s as [|c s]; intros H; [reflexivity|].
  cbn [trimStart]. now rewrite (H c (or_introl eq_refl)).
Qed.

Lemma trim_no_space (s : str) :
  (forall c, In c s -> is_space c = false) -> trim s = s.
Proof.
  intros H. unfold trim, trimEnd. rewrite (trimStart_no_space s H).
  rewrite trimStart_no_space; [apply rev_involutive|].
  intros c Hc. apply H. now apply in_rev.
Qed.

Lemma split_go_no_space (s cur : str) (b : bool) :
  (forall c, In c s -> is_space c = false) ->
  split_go s cur b = [rev cur ++ s].
Proof.
  revert cur b; induction s as [|c s IH]; intros cur b H; cbn [split_go].
  - now rewrite app_nil_r.
  - rewrite (H c (or_introl eq_refl)).
    rewrite IH by (intros d Hd; apply H; now right).
    cbn [rev]. now rewrite <- app_assoc.
Qed.

(** The planner on an alias of a single word. *)
Lemma planQuery_single_word a :
  single_word_alias a -> planQuery a = Some [alias_stem a].
Proof.
  unfold single_word_alias, alias_stem. cbv zeta.
  intros (Hsp & Htrim & Hlen & Hstop & Hstem). rewrite Htrim.
  set (w := toLowerCase (trim a)) in *.
  assert (Hw : queryWords a = [w]).
  { unfold queryWords, trimmed. fold w. unfold split_ws.
    rewrite (split_go_no_space w [] false Hsp). cbn [rev app map filter].
    rewrite (trim_no_space w Hsp), Hstop.
    now destruct (Nat.leb_spec 2 (length w)); [|lia]. }
  assert (Hs : queryStems a = [getStem w]).
  { unfold queryStems. rewrite Hw. cbn [map filter].
    now destruct (Nat.leb_spec 2 (length (getStem w))); [|lia]. }
  unfold planQuery. rewrite Hw, Hs. unfold trimmed. fold w.
  now destruct (Nat.ltb_spec (length w) 2); [lia|].
Qed.

(** A query stem that reaches the alias gives weight to its prefix. *)
Lemma reaches_alias_weights p terms a stems qStem :
  In (p, terms) SYNONYMS -> In a terms ->
  planQuery a = Some stems -> In qStem stems -> reaches_alias qStem a ->
  In p (map_keys (codePrefixWeights stems)).
Proof.
  intros Hsyn Ha Hplan Hq Hreach.
  assert (Hs2 : 2 <= length (alias_stem a)).
  { destruct Hreach as [<-|[H _]]; [|exact H].
    apply planQuery_stems in Hplan. rewrite Hplan in Hq.
    unfold queryStems in Hq. apply filter_In in Hq as [_ H].
    now apply Nat.leb_le in H. }
  destruct (stemToPrefixes_complete p terms a Hsyn Ha Hs2) as (arr & Hg & Hin).
  fold (alias_stem a) in Hg.
  apply codePrefixWeights_keys. exists qStem. split; [assumption|].
  destruct Hreach as [->|(_ & Hnot & Hslice & Hinc)].
  - unfold stem_hits. rewrite Hg.
    destruct arr as [|p0 ps]; [contradiction|].
    rewrite map_map. cbn [fst]. now rewrite map_id.
  - unfold stem_hits. rewrite (proj2 (map_get_None_keys _ _) Hnot).
    change (match map_get (slice0 3 qStem) stemPrefixIndex with
            | Some b => b | None => [] end)
      with (posting stemPrefixIndex (slice0 3 qStem)).
    apply in_map_iff.
    exists (p, if str_eqb (alias_stem a) qStem then 1.2%Q else 0.8%Q).
    split; [reflexivity|]. apply in_flat_map. exists (alias_stem a). split.
    + destruct stemToPrefixes_keys_inv as (_ & Hlen & _).
      unfold stemPrefixIndex. rewrite posting_fold_add_bucket by exact Hlen.
      cbn [posting map_get app]. apply filter_In. split.
      * now apply map_get_key in Hg.
      * rewrite Hslice. apply str_eqb_refl.
    + rewrite Hinc, Hg. apply in_map_iff. now exists p.
Qed.

(** An entry under a weighted prefix. *)
Lemma weighted_prefix_entry p stems i it :
  length p = 2 \/ 4 <= length p ->
  nth_error items i = Some it -> prefix_matches it p = true ->
  In p (map_keys (codePrefixWeights stems)) ->
  In i (candidates stems) /\
  subjectConfirmed (score_item stems (codePrefixWeights stems) it) = true /\
  (length stems = 1 ->
   relevant stems (score_item stems (codePrefixWeights stems) it) = true).
Proof.
  intros Hlen Hn Hm Hkey.
  assert (Hne : codePrefixWeights stems <> []).
  { intros E. rewrite E in Hkey. contradiction. }
  assert (Hc : In i (candidates stems)).
  { rewrite candidates_with_prefix_signal by assumption.
    apply prefix_candidates_In. exists p. split; [assumption|].
    now apply prefix_matches_in_postings with (it := it). }
  destruct (map_key_get _ _ Hkey) as (x & Hx).
  apply map_get_In in Hx.
  assert (Hx16 : (1600 <= x)%Q) by (apply (codePrefixWeights_ok stems p x Hx)).
  destruct (score_item_prefix_hit stems (codePrefixWeights stems) it p x Hx Hm)
    as [Hsc Hconf].
  { intros [k y] Hin. simpl.
    pose proof (codePrefixWeights_ok stems k y Hin). lra. }
  split; [assumption|]. split; [assumption|].
  intros H1. unfold relevant. rewrite Hconf, H1. simpl.
  destruct (Qle_bool _ 800) eqn:E; [|reflexivity].
  apply Qle_bool_iff in E. lra.
Qed.

(** C4 (as amended). Take a code prefix of the synonym map of length 2, or
    of length 4 or more, an alias term registered under it, and a catalog
    entry whose matching-length code prefix equals the prefix.  Whenever the
    search for the alias gives weight to the prefix, the entry is a candidate
    with its subject confirmed; with a single stem it passes the relevance
    rule; and whenever it passes the relevance rule and at most 30
    candidates pass it, the entry is in the returned list.  The search gives
    weight to the prefix whenever one of its stems reaches the alias: it
    equals the stem under which the alias is indexed, or it is not itself an
    indexed stem, shares the first three code units of the alias's stem and
    contains it or is contained in it (as for the first word of an alias of
    several words).  An alias of a single word, at least 2 code units long,
    that is not a stop word and whose stem has at least 2 code units, always
    does: the planner reduces it to the one stem under which it is
    indexed. *)
Theorem alias_query_reaches_prefix_entries
    (p : str) (terms : list str) (a : str) (i : nat) (it : IndexedTNVED) :
  In (p, terms) SYNONYMS -> In a terms ->
  length p = 2 \/ 4 <= length p ->
  nth_error items i = Some it -> prefix_matches it p = true ->
  (single_word_alias a -> planQuery a = Some [alias_stem a]) /\
  forall stems, planQuery a = Some stems ->
    ((exists qStem, In qStem stems /\ reaches_alias qStem a) ->
     In p (map_keys (codePrefixWeights stems))) /\
    (In p (map_keys (codePrefixWeights stems)) ->
     let sc := score_item stems (codePrefixWeights stems) it in
     In i (candidates stems) /\
     subjectConfirmed sc = true /\
     (length stems = 1 -> relevant stems sc = true) /\
     exists l, handleSearchLocal a = Ok l /\
       (relevant stems sc = true -> length (kept stems) <= 30 -> In it l)).
Proof.
  intros Hsyn Ha Hlen Hn Hm. split; [apply planQuery_single_word|].
  intros stems Hplan. split.
  - intros (qStem & Hq & Hreach).
    now apply (reaches_alias_weights p terms a stems qStem).
  - intros Hkey sc.
    destruct (weighted_prefix_entry p stems i it Hlen Hn Hm Hkey)
      as (Hc & Hconf & Hrel).
    split; [assumption|]. split; [assumption|]. split; [assumption|].
    eexists. split; [apply handleSearchLocal_eq|].
    rewrite Hplan. intros Hr Hcap.
    now apply ranked_complete with (idx := i).
Qed.

End Engine.

(* ================================================================== *)
(** ** The prefix signal and the fallbacks *)

(** C10. Whenever a code prefix has received a positive weight, the
    candidates are exactly those collected from the postings of the weighted
    prefixes: each candidate is listed under a weighted prefix of length 2
    or 4 (or under the first 4 characters of a longer one) and its entry
    carries that key; neither the title-stem postings nor the limited scan
    contribute.  The result can then be empty although a query stem matches
    the title of an entry that the title-stem postings list. *)
Theorem prefix_signal_bypasses_fallbacks :
  (forall (toLowerCase : str -> str) (SYNONYMS : list (str * list str))
          (TNVED_DB : list TNVEDCode) (stems : list str),
     (exists p x,
        map_get p (codePrefixWeights toLowerCase SYNONYMS stems) = Some x /\
        (0 < x)%Q) ->
     candidates toLowerCase SYNONYMS TNVED_DB stems =
     prefix_candidates toLowerCase TNVED_DB
       (codePrefixWeights toLowerCase SYNONYMS stems) /\
     forall j, In j (candidates toLowerCase SYNONYMS TNVED_DB stems) ->
       exists p,
         In p (map_keys (codePrefixWeights toLowerCase SYNONYMS stems)) /\
         in_prefix_postings toLowerCase TNVED_DB p j /\
         exists it, nth_error (items toLowerCase TNVED_DB) j = Some it /\
           (_code2 it = p \/ _code4 it = p \/ _code4 it = slice0 4 p))
  /\
  (exists (SYNONYMS : list (str * list str)) (TNVED_DB : list TNVEDCode)
          (query : str) (stems : list str) (it : IndexedTNVED),
     planQuery lower_basic query = Some stems /\
     (exists p x,
        map_get p (codePrefixWeights lower_basic SYNONYMS stems) = Some x /\
        (0 < x)%Q) /\
     In it (items lower_basic TNVED_DB) /\
     (exists s, In s stems /\ title_match it s = true) /\
     stem_candidates lower_basic TNVED_DB stems <> [] /\
     handleSearchLocal lower_basic SYNONYMS TNVED_DB query = Ok []).
Proof.
  split.
  - intros lower SYN DB stems H.
    exact (prefix_signal_confines_candidates lower SYN DB stems H).
  - exists stray_synonyms, sample_db, (lit "телефон"), [lit "телефон"],
      (index_item lower_basic sample_phone).
    split; [reflexivity|]. split.
    { exists (lit "9999"). eexists. split; vm_compute; reflexivity. }
    split; [now left|]. split.
    { exists (lit "телефон"). split; [now left | reflexivity]. }
    split; [vm_compute; discriminate | reflexivity].
Qed.

Lemma prefix_signal_bypasses_fallbacks_witness :
  (exists p x,
     map_get p (codePrefixWeights lower_basic sample_synonyms [lit "смартфон"])
     = Some x /\ (0 < x)%Q) /\
  candidates lower_basic sample_synonyms sample_db [lit "смартфон"] =
  prefix_candidates lower_basic sample_db
    (codePrefixWeights lower_basic sample_synonyms [lit "смартфон"]).
Proof.
  assert (H : exists p x,
     map_get p (codePrefixWeights lower_basic sample_synonyms [lit "смартфон"])
     = Some x /\ (0 < x)%Q).
  { exists (lit "8517"). eexists. split; vm_compute; reflexivity. }
  split; [exact H|].
  exact (proj1 (proj1 prefix_signal_bypasses_fallbacks
                  lower_basic sample_synonyms sample_db [lit "смартфон"] H)).
Defined.

(* ================================================================== *)
(** ** The statements on the sample data *)

(** Counterexample to C3 as first stated (a token is returned unchanged
    when stripping would leave nothing): the one-letter word "я" is a listed
    suffix and is reduced to the empty string. *)
Lemma getStem_empties_a_bare_suffix :
  In (normalize lower_basic (lit "я")) SUFFIXES /\
  getStem lower_basic (lit "я") = [] /\
  getStem lower_basic (lit "я") <> normalize lower_basic (lit "я").
Proof.
  split; [|split].
  - apply existsb_str_eqb. reflexivity.
  - reflexivity.
  - vm_compute. discriminate.
Qed.

(** Counterexample to C1 as first stated (an entry whose description
    contains "8703" is returned): on the sample catalog no alias and no
    title stem matches the query, entry 2 is scanned and its description
    contains "8703", and the result is empty. *)
Lemma description_hit_alone_is_not_returned :
  lower_basic (lit "8703") = lit "8703" /\
  codePrefixWeights lower_basic sample_synonyms [lit "8703"] = [] /\
  (forall it, In it (items lower_basic sample_db) ->
     title_match it (lit "8703") = false) /\
  candidates lower_basic sample_synonyms sample_db [lit "8703"] = [0; 1; 2] /\
  (exists it, nth_error (items lower_basic sample_db) 2 = Some it /\
     desc_match it (lit "8703") = true) /\
  handleSearchLocal lower_basic sample_synonyms sample_db (lit "8703") = Ok [].
Proof.
  split; [reflexivity|]. split; [reflexivity|]. split.
  { intros it H.
    assert (F : forallb (fun it => negb (title_match it (lit "8703")))
                  (items lower_basic sample_db) = true) by reflexivity.
    apply (proj1 (forallb_forall _ _) F) in H. now apply negb_true_iff in H. }
  split; [reflexivity|]. split; [|reflexivity].
  eexists. split; reflexivity.
Qed.

Lemma bare_code_query_witness :
  lower_basic (lit "8703") = lit "8703" /\
  codePrefixWeights lower_basic sample_synonyms [lit "8703"] = [] /\
  (forall it, In it (items lower_basic sample_db) ->
     title_match it (lit "8703") = false) /\
  planQuery lower_basic (lit "8703") = Some [lit "8703"] /\
  candidates lower_basic sample_synonyms sample_db [lit "8703"] =
  seq 0 (Nat.min (length (items lower_basic sample_db)) 3000) /\
  handleSearchLocal lower_basic sample_synonyms sample_db (lit "8703") = Ok [].
Proof.
  assert (H3 : forall it, In it (items lower_basic sample_db) ->
     title_match it (lit "8703") = false).
  { intros it H.
    assert (F : forallb (fun it => negb (title_match it (lit "8703")))
                  (items lower_basic sample_db) = true) by reflexivity.
    apply (proj1 (forallb_forall _ _) F) in H.
    destruct (title_match it (lit "8703")); [discriminate H | reflexivity]. }
  split; [reflexivity|]. split; [reflexivity|]. split; [exact H3|].
  exact (bare_code_query_scans_and_returns_nothing
           lower_basic sample_synonyms sample_db eq_refl eq_refl H3).
Defined.

(** Counterexample to C4 as first stated (every alias finds every entry
    of its prefix): an alias that is a stop word makes the planner return
    before any index is read, and for a prefix of three characters no
    posting list is read, although the entry would pass the relevance
    rule. *)
Lemma alias_query_can_miss_prefix_entries :
  (In (lit "9503", [lit "набор"]) stop_word_synonyms /\
   nth_error (items lower_basic toy_db) 0 =
     Some (index_item lower_basic sample_toy) /\
   prefix_matches (index_item lower_basic sample_toy) (lit "9503") = true /\
   planQuery lower_basic (lit "набор") = None /\
   handleSearchLocal lower_basic stop_word_synonyms toy_db (lit "набор")
     = Ok [])
  /\
  (In (lit "851", [lit "смартфон"]) short_key_synonyms /\
   nth_error (items lower_basic sample_db) 0 =
     Some (index_item lower_basic sample_phone) /\
   prefix_matches (index_item lower_basic sample_phone) (lit "851") = true /\
   relevant [lit "смартфон"]
     (score_item [lit "смартфон"]
        (codePrefixWeights lower_basic short_key_synonyms [lit "смартфон"])
        (index_item lower_basic sample_phone)) = true /\
   handleSearchLocal lower_basic short_key_synonyms sample_db (lit "смартфон")
     = Ok []).
Proof.
  split.
  - split; [now left|]. repeat split; reflexivity.
  - split; [now left|]. repeat split; reflexivity.
Qed.

Lemma alias_query_witness :
  single_word_alias lower_basic (lit "смартфон") /\
  (exists l,
     handleSearchLocal lower_basic sample_synonyms sample_db (lit "смартфон")
       = Ok l /\
     In (index_item lower_basic sample_phone) l) /\
  planQuery lower_basic (lit "мобильный телефон") =
    Some [lit "мобильн"; lit "телефон"] /\
  reaches_alias lower_basic phrase_synonyms
    (lit "мобильн") (lit "мобильный телефон") /\
  (exists l,
     handleSearchLocal lower_basic phrase_synonyms sample_db
       (lit "мобильный телефон") = Ok l /\
     In (index_item lower_basic sample_phone) l).
Proof.
  assert (H3 : length (lit "8517") = 2 \/ 4 <= length (lit "8517"))
    by (right; apply le_n).
  assert (H6 : nth_error (items lower_basic sample_db) 0 =
               Some (index_item lower_basic sample_phone)) by reflexivity.
  assert (H7 : prefix_matches (index_item lower_basic sample_phone)
                              (lit "8517") = true) by reflexivity.
  assert (Hw : single_word_alias lower_basic (lit "смартфон")).
  { unfold single_word_alias. cbv zeta. split.
    - intros c Hc.
      assert (F : forallb (fun c => negb (is_space c))
                    (lower_basic (trim (lit "смартфон"))) = true)
        by reflexivity.
      apply (proj1 (forallb_forall _ _) F) in Hc.
      destruct (is_space c); [discriminate Hc | reflexivity].
    - split; [reflexivity|]. split; [apply Nat.leb_le; reflexivity|].
      split; [reflexivity | apply Nat.leb_le; reflexivity]. }
  assert (Hr : reaches_alias lower_basic phrase_synonyms
                 (lit "мобильн") (lit "мобильный телефон")).
  { right. split; [apply Nat.leb_le; reflexivity|]. split.
    - intros [H|[]]. discriminate H.
    - split; reflexivity. }
  split; [exact Hw|]. split.
  - destruct (alias_query_reaches_prefix_entries
                lower_basic sample_synonyms sample_db
                (lit "8517") (map lit ["смартфон"; "телефон"; "мобильный"]%string)
                (lit "смартфон") 0 (index_item lower_basic sample_phone)
                (or_introl eq_refl) (or_introl eq_refl) H3 H6 H7)
      as [Hplan Hgen].
    destruct (Hgen _ (Hplan Hw)) as [Hkey Hres].
    destruct (Hres (Hkey (ex_intro _ _ (conj (or_introl eq_refl)
                                             (or_introl eq_refl)))))
      as (_ & _ & Hrel & l & Hl & Hin).
    exists l. split; [exact Hl|].
    apply Hin; [apply Hrel; reflexivity | apply Nat.leb_le; reflexivity].
  - split; [reflexivity|]. split; [exact Hr|].
    destruct (alias_query_reaches_prefix_entries
                lower_basic phrase_synonyms sample_db
                (lit "8517") [lit "мобильный телефон"]
                (lit "мобильный телефон") 0
                (index_item lower_basic sample_phone)
                (or_introl eq_refl) (or_introl eq_refl) H3 H6 H7)
      as [_ Hgen].
    destruct (Hgen [lit "мобильн"; lit "телефон"] eq_refl) as [Hkey Hres].
    destruct (Hres (Hkey (ex_intro _ (lit "мобильн")
                            (conj (or_introl eq_refl) Hr))))
      as (_ & _ & _ & l & Hl & Hin).
    exists l. split; [exact Hl|].
    apply Hin; [reflexivity | apply Nat.leb_le; reflexivity].
Defined.

Lemma single_stem_witness :
  length (queryStems lower_basic (lit "смартфон")) = 1 /\
  exists l,
    handleSearchLocal lower_basic sample_synonyms sample_db (lit "смартфон")
      = Ok l /\
    forall it, In it l ->
      (800 < acc_score
               (score_item (queryStems lower_basic (lit "смартфон"))
                  (codePrefixWeights lower_basic sample_synonyms
                     (queryStems lower_basic (lit "смартфон"))) it))%Q.
Proof.
  split; [reflexivity|].
  destruct (single_stem_score_above_floor
              lower_basic sample_synonyms sample_db (lit "смартфон") eq_refl)
    as (l & Hl & H).
  exists l. split; [exact Hl|]. intros it Hit. exact (proj2 (H it Hit)).
Defined.

Lemma multi_stem_density_witness :
  2 <= length (queryStems lower_basic (lit "автомобиль легковой")) /\
  exists l,
    handleSearchLocal lower_basic sample_synonyms sample_db
      (lit "автомобиль легковой") = Ok l /\
    forall it, In it l ->
      (1 <= Z.of_nat
              (length (filter (stem_matched lower_basic sample_synonyms it)
                 (queryStems lower_basic (lit "автомобиль легковой")))))%Z.
Proof.
  split; [apply le_n|].
  exact (multi_stem_density lower_basic sample_synonyms sample_db
           (lit "автомобиль легковой") (le_n 2)).
Defined.

Lemma multi_stem_text_match_witness :
  2 <= length (queryStems lower_basic (lit "ноутбуки портативные")) /\
  exists l,
    handleSearchLocal lower_basic sample_synonyms sample_db
      (lit "ноутбуки портативные") = Ok l /\
    forall it, In it l ->
      exists qStem,
        In qStem (queryStems lower_basic (lit "ноутбуки портативные")) /\
        (title_match it qStem = true \/ desc_match it qStem = true).
Proof.
  split; [apply le_n|].
  destruct (multi_stem_needs_text_match lower_basic sample_synonyms sample_db
              (lit "ноутбуки портативные") (le_n 2)) as (l & Hl & H & _).
  exists l. split; [exact Hl | exact H].
Defined.


(* ================================================================== *)
(** ** The exchange-rate fields *)

Lemma handleRateChange_get st key value k :
  get_rate (handleRateChange st key value) k =
  if RateKey_eqb key k && rate_input_ok value then value else get_rate st k.
Proof.
  unfold handleRateChange.
  destruct (rate_input_ok value) eqn:E; simpl.
  - destruct key, k; reflexivity.
  - rewrite andb_false_r. destruct (str_eqb value []) eqn:E0; [|reflexivity].
    apply str_eqb_eq in E0. subst value. discriminate.
Qed.

Lemma last_cons {A : Type} (l : list A) (x d : A) :
  last (x :: l) d = last l x.
Proof.
  revert x d; induction l as [|y l IH]; intros x d; [reflexivity|].
  change (last (x :: y :: l) d) with (last (y :: l) d).
  now rewrite !IH.
Qed.

Lemma after_rate_changes_get (events : list (RateKey * str)) st k :
  get_rate (after_rate_changes events st) k =
  last (map snd (filter (fun e => RateKey_eqb (fst e) k
                                  && rate_input_ok (snd e)) events))
       (get_rate st k).
Proof.
  unfold after_rate_changes. revert st.
  induction events as [|[key value] events IH]; intros st; [reflexivity|].
  cbn [fold_left filter fst snd]. rewrite IH, handleRateChange_get.
  destruct (RateKey_eqb key k && rate_input_ok value); [|reflexivity].
  cbn [map snd]. now rewrite last_cons.
Qed.

Lemma last_Forall {A : Type} (P : A -> Prop) (l : list A) (d : A) :
  Forall P l -> P d -> P (last l d).
Proof.
  induction 1 as [|x l Hx Hl IH]; intros Hd; [assumption|].
  destruct l as [|y l']; [assumption | now apply IH].
Qed.

(** X13. After any sequence of rate edits, each of the three rate fields
    holds the last value offered for it that consists only of digits, white
    space, dots and commas (or its initial value "91.8", "12.7", "98.5" when
    there was none); so the fields never hold any other character. *)
Theorem rate_fields_keep_last_accepted_value
    (events : list (RateKey * str)) (k : RateKey) :
  get_rate (after_rate_changes events initialRatesUI) k =
  last (map snd (filter (fun e => RateKey_eqb (fst e) k
                                  && rate_input_ok (snd e)) events))
       (get_rate initialRatesUI k) /\
  rate_input_ok (get_rate (after_rate_changes events initialRatesUI) k) = true.
Proof.
  split; [apply after_rate_changes_get|].
  rewrite after_rate_changes_get.
  apply (last_Forall (fun v => rate_input_ok v = true)).
  - apply Forall_forall. intros v Hv.
    apply in_map_iff in Hv as (e & <- & He).
    apply filter_In in He as [_ He]. now apply andb_true_iff in He.
  - destruct k; reflexivity.
Qed.

(* ================================================================== *)
(** ** Further statements on the sample data *)

Lemma stems_are_usable_witness :
  planQuery lower_basic (lit "смартфон") = Some [lit "смартфон"] /\
  1 <= length [lit "смартфон"] /\
  2 <= length (lit "смартфон").
Proof.
  assert (H : planQuery lower_basic (lit "смартфон") = Some [lit "смартфон"])
    by reflexivity.
  split; [exact H|].
  destruct (proj1 (stems_are_usable lower_basic sample_db) _ _ H) as [H1 H2].
  split; [exact H1|]. exact (proj1 (H2 _ (or_introl eq_refl))).
Defined.

Lemma search_ignores_outer_white_space_witness :
  (forall c, In c [32; 9]%N -> is_space c = true) /\
  (forall c, In c [160; 10]%N -> is_space c = true) /\
  handleSearchLocal lower_basic sample_synonyms sample_db
    ([32; 9]%N ++ lit "смартфон" ++ [160; 10]%N) =
  handleSearchLocal lower_basic sample_synonyms sample_db (lit "смартфон").
Proof.
  assert (H1 : forall c, In c [32; 9]%N -> is_space c = true)
    by (intros c [<-|[<-|[]]]; reflexivity).
  assert (H2 : forall c, In c [160; 10]%N -> is_space c = true)
    by (intros c [<-|[<-|[]]]; reflexivity).
  split; [exact H1|]. split; [exact H2|].
  exact (search_ignores_outer_white_space lower_basic sample_synonyms sample_db
           _ _ _ H1 H2).
Defined.

Lemma title_stem_fallback_witness :
  planQuery lower_basic (lit "автомобили") = Some [lit "автомобил"] /\
  codePrefixWeights lower_basic sample_synonyms [lit "автомобил"] = [] /\
  posting (byStem (searchIndex lower_basic sample_db)) (lit "автомобил") <> [] /\
  handleSearchLocal lower_basic sample_synonyms sample_db (lit "автомобили") =
  Ok (firstn 30
        (filter (fun it => existsb (str_eqb (lit "автомобил")) (_titleStems it))
                (items lower_basic sample_db))).
Proof.
  assert (H3 : posting (byStem (searchIndex lower_basic sample_db))
                       (lit "автомобил") <> [])
    by (vm_compute; discriminate).
  split; [reflexivity|]. split; [reflexivity|]. split; [exact H3|].
  exact (title_stem_fallback_result lower_basic sample_synonyms sample_db
           (lit "автомобили") (lit "автомобил") eq_refl eq_refl H3).
Defined.

Lemma stem_hits_exact_witness :
  In (lit "смартфон") (map_keys (stemToPrefixes lower_basic sample_synonyms)) /\
  stem_hits lower_basic sample_synonyms (lit "смартфон") =
  [(lit "8517", 1.2%Q)].
Proof.
  assert (H : In (lit "смартфон")
                 (map_keys (stemToPrefixes lower_basic sample_synonyms)))
    by (left; reflexivity).
  split; [exact H|].
  exact (proj1 (stem_hits_exact_or_approximate lower_basic sample_synonyms
                  (lit "смартфон")) H).
Defined.

Lemma title_stem_branch_witness :
  planQuery lower_basic (lit "легковые автомобили") =
    Some [lit "легков"; lit "автомобил"] /\
  codePrefixWeights lower_basic sample_synonyms
    [lit "легков"; lit "автомобил"] = [] /\
  stem_candidates lower_basic sample_db [lit "легков"; lit "автомобил"] <> [] /\
  exists l,
    handleSearchLocal lower_basic sample_synonyms sample_db
      (lit "легковые автомобили") = Ok l /\
    forall it, In it l ->
      exists s, In s [lit "легков"; lit "автомобил"] /\
                In s (_titleStems it) /\ 3 <= length s.
Proof.
  assert (H3 : stem_candidates lower_basic sample_db
                 [lit "легков"; lit "автомобил"] <> [])
    by (vm_compute; discriminate).
  split; [reflexivity|]. split; [reflexivity|]. split; [exact H3|].
  exact (title_stem_branch_needs_equal_stem lower_basic sample_synonyms
           sample_db (lit "легковые автомобили") _ eq_refl eq_refl H3).
Defined.

Lemma scan_fallback_witness :
  planQuery lower_basic (lit "смарт") = Some [lit "смарт"] /\
  codePrefixWeights lower_basic [] [lit "смарт"] = [] /\
  stem_candidates lower_basic sample_db [lit "смарт"] = [] /\
  candidates lower_basic [] sample_db [lit "смарт"] = [0; 1; 2] /\
  handleSearchLocal lower_basic [] sample_db (lit "смарт") =
    Ok [index_item lower_basic sample_phone].
Proof.
  split; [reflexivity|]. split; [reflexivity|]. split; [reflexivity|].
  split; [|reflexivity].
  exact (proj1 (scan_fallback_is_bounded lower_basic [] sample_db
                  (lit "смарт") [lit "смарт"] eq_refl eq_refl eq_refl)).
Defined.

(** Counterexample to C2 as first stated (N counts the distinct stems):
    the query repeats a word, its four stems are three distinct ones, and the
    returned entry matches one of the three, fewer than ceil(0.4 * 3) = 2;
    the code divides the two matched occurrences by the four stems. *)
Lemma repeated_word_lowers_distinct_density :
  queryStems lower_basic (lit "ноутбук ноутбук красный зеленый") =
    [lit "ноутбук"; lit "ноутбук"; lit "красн"; lit "зелен"] /\
  uniq (queryStems lower_basic (lit "ноутбук ноутбук красный зеленый")) =
    [lit "ноутбук"; lit "красн"; lit "зелен"] /\
  exists it,
    nth_error (items lower_basic sample_db) 1 = Some it /\
    handleSearchLocal lower_basic sample_synonyms sample_db
      (lit "ноутбук ноутбук красный зеленый") = Ok [it] /\
    filter (stem_matched lower_basic sample_synonyms it)
      [lit "ноутбук"; lit "красн"; lit "зелен"] = [lit "ноутбук"] /\
    Qceiling (0.4 * inject_Z (Z.of_nat 3)) = 2%Z.
Proof.
  split; [reflexivity|]. split; [reflexivity|].
  eexists. split; [reflexivity|]. repeat split; reflexivity.
Qed.

